(** * Statically Avatar: a shallow embedding of the worker and its properties

    The worker (the last script of [src/README.md]) turns a request URL into
    an SVG avatar.  Its core is a Punycode decoder (RFC 3492), a grapheme
    truncation, a query-parameter parser and an SVG template.

    Conventions of the embedding.
    - A JavaScript string is the list of its UTF-16 code units ([jsstring]).
    - A JavaScript number that holds an integer is a [Z].  Numbers are
      binary64 floats: sums, products and floored quotients of integers
      are exact as long as the values stay at or below
      [MAX_SAFE_INTEGER] = 2^53 - 1.  The decoder accumulates unbounded
      products; where its accumulator leaves that range the model stops
      with [Inexact] instead of following the rounding of the floats.  The
      font size, which is a genuine fraction, is a primitive binary64
      float.
    - A function that can throw returns an [outcome]; a loop whose bound
      is not structural runs on fuel, and lemmas show the fuel to suffice.
    - What the host provides and the source only calls (the grapheme
      segmenter, the decimal form of a number) is a field of [Runtime];
      the source of random numbers is an argument. *)

From Stdlib Require Import ZArith List Lia Bool.
From Stdlib Require String Ascii.
From Stdlib Require Import PrimFloat Uint63.
Import ListNotations String.StringSyntax.
Local Open Scope Z_scope.

(* ================================================================== *)
(** ** Strings and outcomes *)

Definition jsstring := list Z.

(** An ASCII literal as a JavaScript string. *)
Definition str (s : String.string) : jsstring :=
  map (fun a => Z.of_N (Ascii.N_of_ascii a)) (String.list_ascii_of_string s).

Delimit Scope string_scope with string.
Arguments str s%_string.

(** [Array.prototype.join] with the empty separator, on an array of
    strings. *)
Definition join (parts : list jsstring) : jsstring := concat parts.

(** [s.startsWith(p)]. *)
Fixpoint startsWith (s p : jsstring) : bool :=
  match p, s with
  | [], _ => true
  | _ :: _, [] => false
  | b :: p', a :: s' => (a =? b) && startsWith s' p'
  end.

Fixpoint jsstring_eqb (s p : jsstring) : bool :=
  match s, p with
  | [], [] => true
  | a :: s', b :: p' => (a =? b) && jsstring_eqb s' p'
  | _, _ => false
  end.

(** [s.slice(k)] for a non-negative [k]. *)
Definition sliceFrom (s : jsstring) (k : nat) : jsstring := skipn k s.

Inductive error : Type :=
| NonAsciiBasic   (* Error: non-ASCII character in basic portion *)
| UnexpectedEnd   (* Error: unexpected end of input *)
| InvalidDigit    (* Error: invalid digit *)
| RangeError      (* String.fromCodePoint on an invalid code point *)
| URIError.       (* decodeURIComponent on a malformed sequence *)

Inductive outcome (A : Type) : Type :=
| Return (a : A)      (* normal completion *)
| Throw (e : error)   (* an exception propagates *)
| Inexact             (* an integer accumulator exceeded 2^53 - 1 *)
| OutOfFuel.          (* a loop of the model ran out of fuel *)

Arguments Return {A} a.
Arguments Throw {A} e.
Arguments Inexact {A}.
Arguments OutOfFuel {A}.

Definition bind {A B} (m : outcome A) (f : A -> outcome B) : outcome B :=
  match m with
  | Return a => f a
  | Throw e => Throw e
  | Inexact => Inexact
  | OutOfFuel => OutOfFuel
  end.

Notation "x <- m ;; k" := (bind m (fun x => k))
  (at level 61, m at next level, right associativity).
Notation "' p <- m ;; k" := (bind m (fun x => let p := x in k))
  (at level 61, p pattern, m at next level, right associativity).

Definition MAX_SAFE_INTEGER : Z := 2 ^ 53 - 1.

(** The value of an integer expression whose exact result is [z]. *)
Definition safe (z : Z) : outcome Z :=
  if z <=? MAX_SAFE_INTEGER then Return z else Inexact.

(** A number that may also be [-Infinity] (a negative quotient by zero). *)
Inductive number : Type :=
| Num (z : Z)
| NegInfinity.

(** [ToInt32]: the low 32 bits, read as a signed integer. *)
Definition toInt32 (z : Z) : Z :=
  let m := z mod 2 ^ 32 in
  if m <? 2 ^ 31 then m else m - 2 ^ 32.

(* ================================================================== *)
(** ** Configuration *)

Definition BASEPATH : jsstring := str "/avatar/".

Module DEFAULTS.
Definition size : Z := 60.
Definition text : jsstring := str "A".
Definition maxTextLength : Z := 2.
Definition fontSizeRatio : float := 0x1.ccccccccccccdp-1%float. (* 0.9 *)
End DEFAULTS.

Module CACHE.
Definition none : jsstring := str "no-cache".
Definition longTerm : jsstring := str "public, max-age=31536000, immutable".
End CACHE.

Module PUNYCODE.
Definition base : Z := 36.
Definition tMin : Z := 1.
Definition tMax : Z := 26.
Definition skew : Z := 38.
Definition damp : Z := 700.
Definition initialBias : Z := 72.
Definition initialN : Z := 128.
Definition delimiter : Z := 45.               (* "-" *)
Definition prefix : jsstring := str "xn--".
End PUNYCODE.

(* ================================================================== *)
(** ** Punycode decoder *)

(** [punycodeDigitToBasic]: [None] stands for the [Infinity] the source
    returns on a code unit that is no base-36 digit. *)
Definition punycodeDigitToBasic (codePoint : Z) : option Z :=
  if (48 <=? codePoint) && (codePoint <=? 57) then Some (codePoint - 48 + 26)
  else if (65 <=? codePoint) && (codePoint <=? 90) then Some (codePoint - 65)
  else if (97 <=? codePoint) && (codePoint <=? 122) then Some (codePoint - 97)
  else None.

(** The [while (delta > threshold)] loop of [punycodAdapt]. *)
Fixpoint adapt_loop (fuel : nat) (delta k : Z) : Z * Z :=
  match fuel with
  | O => (delta, k)
  | S fuel' =>
      if delta >? Z.shiftr ((PUNYCODE.base - PUNYCODE.tMin) * PUNYCODE.tMax) 1
      then adapt_loop fuel' (delta / (PUNYCODE.base - PUNYCODE.tMin))
                      (k + PUNYCODE.base)
      else (delta, k)
  end.

(** Every turn of the loop divides [delta] by 35, so that the binary
    logarithm of [delta] bounds the number of turns. *)
Definition adapt_fuel (delta : Z) : nat := Z.to_nat (Z.log2 delta).

Definition punycodAdapt (delta numPoints : Z) (firstTime : bool) : number :=
  let delta := if firstTime then delta / PUNYCODE.damp
               else Z.shiftr (toInt32 delta) 1 in
  let delta := delta + delta / numPoints in
  let '(delta, k) := adapt_loop (adapt_fuel delta) delta 0 in
  if delta + PUNYCODE.skew =? 0 then NegInfinity
  else Num (k + ((PUNYCODE.base - PUNYCODE.tMin + 1) * delta)
                  / (delta + PUNYCODE.skew)).

(** The threshold [t] of the digit at place [k]:
    [k <= bias ? tMin : k >= bias + tMax ? tMax : k - bias]. *)
Definition threshold (k : Z) (bias : number) : Z :=
  match bias with
  | Num b =>
      if k <=? b then PUNYCODE.tMin
      else if k >=? b + PUNYCODE.tMax then PUNYCODE.tMax
      else k - b
  | NegInfinity => PUNYCODE.tMax
  end.

(** The inner [while (true)] loop: one variable-length integer is read off
    the front of [rest] (the input from [index] on) and added to [i]. *)
Fixpoint decode_integer (rest : jsstring) (i w k : Z) (bias : number)
  : outcome (Z * jsstring) :=
  match rest with
  | [] => Throw UnexpectedEnd
  | c :: rest' =>
      match punycodeDigitToBasic c with
      | None => Throw InvalidDigit
      | Some digit =>
          i' <- safe (i + digit * w) ;;
          let t := threshold k bias in
          if digit <? t then Return (i', rest')
          else decode_integer rest' i' (w * (PUNYCODE.base - t))
                              (k + PUNYCODE.base) bias
      end
  end.

(** [String.fromCodePoint(n)]. *)
Definition fromCodePoint (n : Z) : outcome jsstring :=
  if (n <? 0) || (1114111 <? n) then Throw RangeError
  else if n <=? 65535 then Return [n]
  else Return [55296 + Z.shiftr (n - 65536) 10;
               56320 + Z.land (n - 65536) 1023].

(** [output.splice(i, 0, s)]. *)
Definition splice (output : list jsstring) (i : Z) (s : jsstring)
  : list jsstring :=
  firstn (Z.to_nat i) output ++ s :: skipn (Z.to_nat i) output.

(** The outer [while (index < input.length)] loop. *)
Fixpoint decode_loop (fuel : nat) (rest : jsstring) (output : list jsstring)
    (i n : Z) (bias : number) : outcome jsstring :=
  match rest with
  | [] => Return (join output)
  | _ :: _ =>
      match fuel with
      | O => OutOfFuel
      | S fuel' =>
          let oldi := i in
          '(i, rest') <- decode_integer rest i 1 PUNYCODE.base bias ;;
          let outputLength := Z.of_nat (length output) + 1 in
          let bias := punycodAdapt (i - oldi) outputLength (oldi =? 0) in
          let n := n + i / outputLength in
          let i := i mod outputLength in
          ch <- fromCodePoint n ;;
          decode_loop fuel' rest' (splice output i ch) (i + 1) n bias
      end
  end.

(** [input.lastIndexOf(c)], [-1] when [c] does not occur. *)
Fixpoint lastIndexOf (input : jsstring) (c : Z) : Z :=
  match input with
  | [] => -1
  | a :: input' =>
      let r := lastIndexOf input' c in
      if 0 <=? r then r + 1 else if a =? c then 0 else -1
  end.

(** The loop that copies the basic code units to the output. *)
Fixpoint copy_basic (basic : jsstring) : outcome (list jsstring) :=
  match basic with
  | [] => Return []
  | codePoint :: basic' =>
      if codePoint >=? 128 then Throw NonAsciiBasic
      else output <- copy_basic basic' ;; Return ([codePoint] :: output)
  end.

Definition punycodeDecode (input : jsstring) : outcome jsstring :=
  let basic := lastIndexOf input PUNYCODE.delimiter in
  let basic := if basic <? 0 then 0 else basic in
  output <- copy_basic (firstn (Z.to_nat basic) input) ;;
  let index := if 0 <? basic then basic + 1 else 0 in
  let rest := skipn (Z.to_nat index) input in
  decode_loop (length rest) rest output 0 PUNYCODE.initialN
              (Num PUNYCODE.initialBias).

(** The UTF-16 form of a sequence of code points. *)
Definition utf16_code_point (c : Z) : jsstring :=
  if c <=? 65535 then [c]
  else [55296 + Z.shiftr (c - 65536) 10; 56320 + Z.land (c - 65536) 1023].

Definition utf16 (x : list Z) : jsstring := concat (map utf16_code_point x).

Definition code_point (c : Z) : Prop := 0 <= c <= 1114111.

(** [isPunycode] lowercases the string first.  The Unicode case tables
    matter to it only through the ASCII range: apart from A-Z, the only
    code units whose lowercase form starts with an ASCII letter are U+0130
    (i with U+0307) and U+212A (the Kelvin sign, k).  These are mapped as
    the tables do; the other code units are left in place. *)
Definition toLowerCase (s : jsstring) : jsstring :=
  flat_map (fun c =>
    if (65 <=? c) && (c <=? 90) then [c + 32]
    else if c =? 304 then [105; 775]
    else if c =? 8490 then [107]
    else [c]) s.

Definition isPunycode (s : jsstring) : bool :=
  startsWith (toLowerCase s) PUNYCODE.prefix.

(** The [try]/[catch] hands back the original string on every exception. *)
Definition decodePunycodeIfNeeded (s : jsstring) : outcome jsstring :=
  if negb (isPunycode s) then Return s
  else
    let encoded := sliceFrom s (length PUNYCODE.prefix) in
    match punycodeDecode encoded with
    | Throw _ => Return s
    | r => r
    end.

(* ================================================================== *)
(** ** Text utilities *)

(** What the program needs of its host: whether [Intl.Segmenter] exists,
    the rule by which the segmenter breaks a text into grapheme clusters,
    and the decimal form of a number.  The rule of Unicode (UAX 29) decides
    a boundary from the code points before it and the one code point after
    it; [graphemeBreak before next] tells whether a cluster ends between
    the code points [before] (the nearest first) and [next]. *)
Record Runtime : Type := {
  hasSegmenter : bool;
  graphemeBreak : list jsstring -> jsstring -> bool;
  numberToString : float -> jsstring
}.

Definition isHighSurrogate (c : Z) : bool := (55296 <=? c) && (c <=? 56319).
Definition isLowSurrogate (c : Z) : bool := (56320 <=? c) && (c <=? 57343).

(** [[...s]]: the string iterator yields one code point at a time, a
    surrogate pair as one string of two code units. *)
Fixpoint codePoints (s : jsstring) : list jsstring :=
  match s with
  | [] => []
  | a :: s' =>
      match s' with
      | b :: s'' =>
          if isHighSurrogate a && isLowSurrogate b
          then [a; b] :: codePoints s''
          else [a] :: codePoints s'
      | [] => [[a]]
      end
  end.

(** The clusters of the code points [cps] that follow the cluster under
    construction, [current]. *)
Fixpoint clusters (rt : Runtime) (before : list jsstring) (current : jsstring)
    (cps : list jsstring) : list jsstring :=
  match cps with
  | [] => [current]
  | cp :: cps' =>
      if graphemeBreak rt before cp
      then current :: clusters rt (cp :: before) cp cps'
      else clusters rt (cp :: before) (current ++ cp) cps'
  end.

(** [[...segmenter.segment(s)].map((s) => s.segment)]. *)
Definition segments (rt : Runtime) (s : jsstring) : list jsstring :=
  match codePoints s with
  | [] => []
  | cp :: cps => clusters rt [cp] cp cps
  end.

(** [array.slice(0, count)]: a negative [count] counts from the end. *)
Definition slice0 {A} (array : list A) (count : Z) : list A :=
  let len := Z.of_nat (length array) in
  let final := if count <? 0 then Z.max (len + count) 0 else Z.min count len in
  firstn (Z.to_nat final) array.

(** The units both functions work on: clusters, or code points when there
    is no segmenter. *)
Definition graphemes (rt : Runtime) (s : jsstring) : list jsstring :=
  if hasSegmenter rt then segments rt s else codePoints s.

Definition getFirstGraphemes (rt : Runtime) (s : jsstring) (count : Z)
  : jsstring :=
  if hasSegmenter rt then join (slice0 (segments rt s) count)
  else join (slice0 (codePoints s) count).

Definition countGraphemes (rt : Runtime) (s : jsstring) : Z :=
  if hasSegmenter rt then Z.of_nat (length (segments rt s))
  else Z.of_nat (length (codePoints s)).

Definition xmlEntities (char : Z) : jsstring :=
  if char =? 38 then str "&amp;"
  else if char =? 60 then str "&lt;"
  else if char =? 62 then str "&gt;"
  else if char =? 34 then str "&quot;"
  else str "&apos;".

(** The character class of the regular expression: ampersand, less-than,
    greater-than, double quote, single quote. *)
Definition xmlSpecial (char : Z) : bool :=
  (char =? 38) || (char =? 60) || (char =? 62) || (char =? 34) || (char =? 39).

(** [s.replace(regexp, (char) => xmlEntities[char])], with the global flag:
    every match is replaced. *)
Definition escapeXml (s : jsstring) : jsstring :=
  flat_map (fun char => if xmlSpecial char then xmlEntities char else [char]) s.

(* ================================================================== *)
(** ** Color utilities *)

(** [Math.floor(Math.random() * 16)] is drawn from a source of random
    numbers that is threaded through the calls: [random k] is the [k]-th
    draw, a number from 0 to 15. *)
Definition hex : jsstring := str "0123456789abcdef".

Fixpoint randomDigits (random : nat -> Z) (next : nat) (count : nat)
  : jsstring :=
  match count with
  | O => []
  | S count' =>
      nth (Z.to_nat (random next mod 16)) hex 0
        :: randomDigits random (S next) count'
  end.

Definition getRandomColor (random : nat -> Z) (next : nat) : jsstring * nat :=
  (str "#" ++ randomDigits random next 6, (next + 6)%nat).

Definition getGradientColors (random : nat -> Z) (next : nat)
  : (jsstring * jsstring) * nat :=
  let '(color1, next) := getRandomColor random next in
  let '(color2, next) := getRandomColor random next in
  ((color1, color2), next).

(* ================================================================== *)
(** ** SVG generation *)

(** The double quote, as a string. *)
Definition quote : jsstring := [34].

(** The values a property lookup on the object [styles] can give. *)
Inductive jsvalue : Type :=
| VUndefined
| VString (s : jsstring)
| VFunction (name : jsstring)     (* a built-in function *)
| VObject.                        (* a plain object *)

(** An object literal inherits the properties of [Object.prototype]. *)
Definition ObjectPrototype : list (jsstring * jsvalue) :=
  [ (str "constructor", VFunction (str "Object"));
    (str "hasOwnProperty", VFunction (str "hasOwnProperty"));
    (str "isPrototypeOf", VFunction (str "isPrototypeOf"));
    (str "propertyIsEnumerable", VFunction (str "propertyIsEnumerable"));
    (str "toLocaleString", VFunction (str "toLocaleString"));
    (str "toString", VFunction (str "toString"));
    (str "valueOf", VFunction (str "valueOf"));
    (str "__defineGetter__", VFunction (str "__defineGetter__"));
    (str "__defineSetter__", VFunction (str "__defineSetter__"));
    (str "__lookupGetter__", VFunction (str "__lookupGetter__"));
    (str "__lookupSetter__", VFunction (str "__lookupSetter__"));
    (str "__proto__", VObject) ].

Fixpoint lookup {A} (properties : list (jsstring * A)) (key : jsstring)
  : option A :=
  match properties with
  | [] => None
  | (k, v) :: properties' =>
      if jsstring_eqb k key then Some v else lookup properties' key
  end.

(** [object[key]] on an object literal with the own properties [own]:
    [null] as a key is the string [null]. *)
Definition getProperty (own : list (jsstring * jsvalue))
    (key : option jsstring) : jsvalue :=
  let key := match key with Some k => k | None => str "null" end in
  match lookup own key with
  | Some v => v
  | None =>
      match lookup ObjectPrototype key with
      | Some v => v
      | None => VUndefined
      end
  end.

Definition truthy (v : jsvalue) : bool :=
  match v with
  | VUndefined => false
  | VString [] => false
  | _ => true
  end.

Definition getShapeStyle (shape : option jsstring) : jsvalue :=
  let styles :=
    [ (str "circle",
       VString (str "style=" ++ quote ++ str "border-radius: 50%;" ++ quote));
      (str "rounded",
       VString (str "style=" ++ quote ++ str "border-radius: 10px;" ++ quote))
    ] in
  let v := getProperty styles shape in
  if truthy v then v else VString [].

(** [ToString] of such a value, as a template literal applies it. *)
Definition toString (v : jsvalue) : jsstring :=
  match v with
  | VUndefined => str "undefined"
  | VString s => s
  | VFunction name => str "function " ++ name ++ str "() { [native code] }"
  | VObject => str "[object Object]"
  end.

(** The number that holds the integer [z]. *)
Definition numberOf (z : Z) : float :=
  if z <? 0 then PrimFloat.opp (PrimFloat.of_uint63 (Uint63.of_Z (- z)))
  else PrimFloat.of_uint63 (Uint63.of_Z z).

Definition calculateFontSize (rt : Runtime) (avatarSize : Z) (text : jsstring)
  : float :=
  let graphemeCount := countGraphemes rt text in
  PrimFloat.div (PrimFloat.mul (numberOf avatarSize) DEFAULTS.fontSizeRatio)
                (numberOf (Z.max graphemeCount 1)).

(** A piece of the template, with the single quote written for the double
    quote (the template holds no single quote of its own). *)
Definition markup (s : String.string) : jsstring :=
  map (fun c => if c =? 39 then 34 else c) (str s).

Arguments markup s%_string.

Definition newline : jsstring := [10].

(** The attribute of the template that carries the font size. *)
Definition fontSizeAttribute (fontSize : jsstring) : jsstring :=
  markup "font-size='" ++ fontSize ++ markup "'".

(** The tail of the template, from the text node on. *)
Definition textNode (safeText : jsstring) : jsstring :=
  markup ">" ++ safeText ++ markup "</text>" ++ newline
  ++ markup "  </g>" ++ newline
  ++ markup "</svg>".

Definition generateSvgAvatar (rt : Runtime) (size : Z) (text : jsstring)
    (shapeStyle : jsvalue) (color1 color2 : jsstring) : jsstring :=
  let fontSize := calculateFontSize rt size text in
  let safeText := escapeXml text in
  let size := numberToString rt (numberOf size) in
  markup "<?xml version='1.0' standalone='no'?>" ++ newline
  ++ markup "<!DOCTYPE svg PUBLIC '-//W3C//DTD SVG 1.1//EN' 'http://www.w3.org/Graphics/SVG/1.1/DTD/svg11.dtd'>" ++ newline
  ++ markup "<svg " ++ toString shapeStyle ++ markup " width='" ++ size
  ++ markup "' height='" ++ size ++ markup "' viewBox='0 0 " ++ size
  ++ markup " " ++ size
  ++ markup "' version='1.1' xmlns='http://www.w3.org/2000/svg'>" ++ newline
  ++ markup "  <g>" ++ newline
  ++ markup "    <defs>" ++ newline
  ++ markup "      <linearGradient id='avatar' x1='0' y1='0' x2='1' y2='1'>" ++ newline
  ++ markup "        <stop offset='0%' stop-color='" ++ color1 ++ markup "'/>" ++ newline
  ++ markup "        <stop offset='100%' stop-color='" ++ color2 ++ markup "'/>" ++ newline
  ++ markup "      </linearGradient>" ++ newline
  ++ markup "    </defs>" ++ newline
  ++ markup "    <rect fill='url(#avatar)' x='0' y='0' width='" ++ size
  ++ markup "' height='" ++ size ++ markup "'/>" ++ newline
  ++ markup "    <text x='50%' y='50%' alignment-baseline='central' dominant-baseline='central' text-anchor='middle' fill='#fff' font-family='sans-serif' "
  ++ fontSizeAttribute (numberToString rt fontSize) ++ textNode safeText.

(* ================================================================== *)
(** ** Request handling *)

(** A parsed URL: its path and its query parameters, in order. *)
Record URL : Type := {
  pathname : jsstring;
  searchParams : list (jsstring * jsstring)
}.

(** [url.searchParams.get(name)]: the first value, or [null]. *)
Definition searchParams_get (url : URL) (name : jsstring) : option jsstring :=
  lookup (searchParams url) name.

Definition hexDigit (c : Z) : option Z :=
  if (48 <=? c) && (c <=? 57) then Some (c - 48)
  else if (65 <=? c) && (c <=? 70) then Some (c - 55)
  else if (97 <=? c) && (c <=? 102) then Some (c - 87)
  else None.

(** The octet of the two hexadecimal digits at the head of [s], and what
    follows them. *)
Definition hexOctet (s : jsstring) : option (Z * jsstring) :=
  match s with
  | h1 :: h2 :: s' =>
      match hexDigit h1, hexDigit h2 with
      | Some a, Some b => Some (16 * a + b, s')
      | _, _ => None
      end
  | _ => None
  end.

(** The escape sequence [%XX] at the head of [s]: its octet and what
    follows it. *)
Definition escapedOctet (s : jsstring) : option (Z * jsstring) :=
  match s with
  | c :: s' => if c =? 37 then hexOctet s' else None
  | [] => None
  end.

(** [count] continuation octets, each [10xxxxxx], appended to the bits
    [value] of the code point. *)
Fixpoint continuationOctets (count : nat) (value : Z) (s : jsstring)
  : option (Z * jsstring) :=
  match count with
  | O => Some (value, s)
  | S count' =>
      match escapedOctet s with
      | Some (octet, s') =>
          if (128 <=? octet) && (octet <=? 191)
          then continuationOctets count' (64 * value + (octet - 128)) s'
          else None
      | None => None
      end
  end.

(** The code point of a UTF-8 sequence that starts with the octet [B]
    (at least 128): [None] when the octets are no valid UTF-8 encoding. *)
Definition utf8CodePoint (B : Z) (s : jsstring) : option (Z * jsstring) :=
  let sequence count bits least :=
    match continuationOctets count bits s with
    | Some (V, s') =>
        if (least <=? V) && (V <=? 1114111)
           && negb ((55296 <=? V) && (V <=? 57343))
        then Some (V, s') else None
    | None => None
    end in
  if B <? 192 then None
  else if B <? 224 then sequence 1%nat (B - 192) 128
  else if B <? 240 then sequence 2%nat (B - 224) 2048
  else if B <? 248 then sequence 3%nat (B - 240) 65536
  else None.

(** [decodeURIComponent]: the Decode operation of ECMAScript with an empty
    set of preserved escapes. *)
Fixpoint decodeURI_loop (fuel : nat) (s : jsstring) : outcome jsstring :=
  match s with
  | [] => Return []
  | C :: s' =>
      match fuel with
      | O => OutOfFuel
      | S fuel' =>
          if C =? 37 then
            match escapedOctet s with
            | None => Throw URIError
            | Some (B, s'') =>
                if B <? 128 then
                  R <- decodeURI_loop fuel' s'' ;; Return (B :: R)
                else
                  match utf8CodePoint B s'' with
                  | None => Throw URIError
                  | Some (V, s''') =>
                      R <- decodeURI_loop fuel' s''' ;;
                      Return (utf16_code_point V ++ R)
                  end
            end
          else R <- decodeURI_loop fuel' s' ;; Return (C :: R)
      end
  end.

Definition decodeURIComponent (s : jsstring) : outcome jsstring :=
  decodeURI_loop (length s) s.

(** The white space and the line terminators that [parseInt] skips. *)
Definition isWhiteSpace (c : Z) : bool :=
  existsb (Z.eqb c)
    [9; 10; 11; 12; 13; 32; 160; 5760; 8232; 8233; 8239; 8287; 12288; 65279]
  || ((8192 <=? c) && (c <=? 8202)).

Fixpoint trimStart (s : jsstring) : jsstring :=
  match s with
  | [] => []
  | c :: s' => if isWhiteSpace c then trimStart s' else s
  end.

Definition isDecimalDigit (c : Z) : bool := (48 <=? c) && (c <=? 57).

(** The longest prefix of decimal digits. *)
Fixpoint decimalDigits (s : jsstring) : jsstring :=
  match s with
  | [] => []
  | c :: s' => if isDecimalDigit c then c :: decimalDigits s' else []
  end.

(** [parseInt(input, 10)]; [None] is [NaN], and [null] is read as the
    string [null].  The result is the exact integer: a number rounds an
    integer beyond 2^53, which the clamp that follows does not see. *)
Definition parseInt (input : option jsstring) : option Z :=
  let inputString := match input with Some s => s | None => str "null" end in
  let trimmed := trimStart inputString in
  let '(sign, rest) :=
    match trimmed with
    | 45 :: rest => (-1, rest)
    | 43 :: rest => (1, rest)
    | _ => (1, trimmed)
    end in
  match decimalDigits rest with
  | [] => None
  | digits =>
      Some (sign * fold_left (fun value c => 10 * value + (c - 48)) digits 0)
  end.

Record AvatarOptions : Type := {
  size : Z;
  text : jsstring;
  shape : option jsstring;
  isRootPath : bool
}.

Definition parseAvatarOptions (rt : Runtime) (url : URL)
  : outcome AvatarOptions :=
  let path := pathname url in
  avatarText <-
    (if startsWith path BASEPATH then
       let rawText := sliceFrom path (length BASEPATH) in
       decodedText <- decodeURIComponent rawText ;;
       unicodeText <- decodePunycodeIfNeeded decodedText ;;
       Return (getFirstGraphemes rt unicodeText DEFAULTS.maxTextLength)
     else Return DEFAULTS.text) ;;
  let size :=
    match parseInt (searchParams_get url (str "s")) with
    | Some 0 | None => DEFAULTS.size
    | Some size => size
    end in
  let shape := searchParams_get url (str "shape") in
  Return {|
    size := Z.max 1 (Z.min size 1000);
    text := match avatarText with [] => DEFAULTS.text | _ => avatarText end;
    shape := shape;
    isRootPath := jsstring_eqb path (str "/")
  |}.

Record Response : Type := {
  body : jsstring;
  contentType : jsstring;
  cacheControl : jsstring
}.

Definition createSvgResponse (svgContent : jsstring) (shouldCache : bool)
  : Response :=
  {| body := svgContent;
     contentType := str "image/svg+xml; charset=utf-8";
     cacheControl := if shouldCache then CACHE.longTerm else CACHE.none |}.

(** [handleRequest], on the parsed URL of the request. *)
Definition handleRequest (rt : Runtime) (random : nat -> Z) (url : URL)
  : outcome Response :=
  options <- parseAvatarOptions rt url ;;
  let '((color1, color2), _) := getGradientColors random 0 in
  let svgAvatar :=
    generateSvgAvatar rt (size options) (text options)
      (getShapeStyle (shape options)) color1 color2 in
  let shouldCache := negb (isRootPath options) in
  Return (createSvgResponse svgAvatar shouldCache).
(* ================================================================== *)
(** ** The reference encoder of RFC 3492

    The decoder is specified against the encoder of RFC 3492, section 6.3,
    written here from the pseudocode of the RFC.  It works on code points.
    The pseudocode fails on overflow and leaves the width of its integers
    to the implementation (section 6.4): [maxint] is the greatest
    representable integer. *)

Module RFC3492.

Definition base : Z := 36.
Definition tmin : Z := 1.
Definition tmax : Z := 26.
Definition skew : Z := 38.
Definition damp : Z := 700.
Definition initial_bias : Z := 72.
Definition initial_n : Z := 128.
Definition delimiter : Z := 45.

(** Section 6.1, bias adaptation:
    [while delta > ((base - tmin) * tmax) div 2 do
       delta := delta div (base - tmin); k := k + base]. *)
Fixpoint adapt_while (fuel : nat) (delta k : Z) : Z * Z :=
  match fuel with
  | O => (delta, k)
  | S fuel' =>
      if delta >? ((base - tmin) * tmax) / 2
      then adapt_while fuel' (delta / (base - tmin)) (k + base)
      else (delta, k)
  end.

Definition adapt (delta numpoints : Z) (firsttime : bool) : Z :=
  let delta := if firsttime then delta / damp else delta / 2 in
  let delta := delta + delta / numpoints in
  let '(delta, k) := adapt_while (Z.to_nat (Z.log2 delta)) delta 0 in
  k + ((base - tmin + 1) * delta) / (delta + skew).

(** Section 5: digit-values 0..25 are a..z and 26..35 are 0..9. *)
Definition digit_code_point (d : Z) : Z :=
  if d <? 26 then d + 97 else d - 26 + 48.

(** [t = tmin if k <= bias, tmax if k >= bias + tmax, k - bias otherwise]. *)
Definition threshold (k bias : Z) : Z :=
  if k <=? bias then tmin
  else if k >=? bias + tmax then tmax
  else k - bias.

(** The generalized variable-length integer that represents [q]:
    [for k = base to infinity in steps of base], with the final digit. *)
Fixpoint encode_integer (fuel : nat) (q k bias : Z) : list Z :=
  let t := threshold k bias in
  if q <? t then [digit_code_point q]
  else
    match fuel with
    | O => []
    | S fuel' =>
        digit_code_point (t + (q - t) mod (base - t))
          :: encode_integer fuel' ((q - t) / (base - t)) (k + base) bias
    end.

(** The quotient drops below every threshold within [log2 q + 1] digits. *)
Definition integer_fuel (q : Z) : nat := S (Z.to_nat (Z.log2 q)).

(** [for each code point c in the input (in order)]: what one pass over
    the (rest of the) input emits, with [delta], [bias] and [h] after it;
    [None] is an overflow. *)
Fixpoint encode_pass (maxint : Z) (rest : list Z) (n delta bias h b : Z)
  : option (list Z * (Z * Z * Z)) :=
  match rest with
  | [] => Some ([], (delta, bias, h))
  | c :: rest' =>
      match (if c <? n
             then if delta <? maxint then Some (delta + 1) else None
             else Some delta) with
      | None => None
      | Some delta =>
          if c =? n then
            match encode_pass maxint rest' n 0
                    (adapt delta (h + 1) (h =? b)) (h + 1) b with
            | None => None
            | Some (digits, st) =>
                Some (encode_integer (integer_fuel delta) delta base bias
                        ++ digits, st)
            end
          else encode_pass maxint rest' n delta bias h b
      end
  end.

(** The minimum code point [>= n] in the input. *)
Fixpoint minimum_from (n : Z) (input : list Z) : option Z :=
  match input with
  | [] => None
  | c :: input' =>
      match minimum_from n input' with
      | None => if n <=? c then Some c else None
      | Some m => if (n <=? c) && (c <? m) then Some c else Some m
      end
  end.

(** [while h < length(input)]. *)
Fixpoint encode_while (fuel : nat) (maxint : Z) (input : list Z)
    (n delta bias h b : Z) : option (list Z) :=
  if h <? Z.of_nat (length input) then
    match fuel with
    | O => None
    | S fuel' =>
        match minimum_from n input with
        | None => None
        | Some m =>
            if m - n >? (maxint - delta) / (h + 1) then None
            else
              let delta := delta + (m - n) * (h + 1) in
              let n := m in
              match encode_pass maxint input n delta bias h b with
              | None => None
              | Some (digits, (delta, bias, h)) =>
                  match encode_while fuel' maxint input
                          (n + 1) (delta + 1) bias h b with
                  | None => None
                  | Some more => Some (digits ++ more)
                  end
              end
        end
    end
  else Some [].

Definition is_basic (c : Z) : bool := c <? 128.

Definition encode (maxint : Z) (input : list Z) : option jsstring :=
  let basic := filter is_basic input in
  let b := Z.of_nat (length basic) in
  match encode_while (length input) maxint input
          initial_n 0 initial_bias b b with
  | None => None
  | Some digits =>
      Some (basic ++ (if 0 <? b then [delimiter] else []) ++ digits)
  end.

End RFC3492.


(* ================================================================== *)
(** ** Auxiliary definitions of the proofs *)

(** The decoder, started in the middle of the encoded portion. *)
Definition decode_from (rest : jsstring) (output : list jsstring)
    (i n : Z) (bias : number) : outcome jsstring :=
  decode_loop (length rest) rest output i n bias.

(** The output array of the decoder holds one string per code point. *)
Definition cells (s : list Z) : list jsstring := map utf16_code_point s.

(** While the encoder stands at code point [n] and has walked over [pre],
    with [rest] ahead, the code points written so far are those at most
    [n] of [pre] and those below [n] of [rest]. *)
Definition decoded (n : Z) (pre rest : list Z) : list Z :=
  filter (fun c => c <=? n) pre ++ filter (fun c => c <? n) rest.

(** The place in [decoded] that the walk of the encoder has reached. *)
Definition position (n : Z) (pre : list Z) : nat :=
  length (filter (fun c => c <=? n) pre).

(** What relates the encoder (at [n], with [delta] and [h], between [pre]
    and [rest]) to the decoder that has read its output (with [i_d] and
    [n_d]): [delta] is the distance from the state of the decoder to the
    place of the encoder, counted in insertion positions. *)
Record in_step (maxint b n delta h : Z) (pre rest : list Z) (i_d n_d : Z)
  : Prop := {
  step_h : h = Z.of_nat (length (decoded n pre rest));
  step_delta :
    delta = (n - n_d) * (h + 1) + (Z.of_nat (position n pre) - i_d);
  step_range : 0 <= delta <= maxint;
  step_i : 0 <= i_d <= h;
  step_first : (h =? b) = (i_d =? 0);
  step_b : b <= h
}.

(** The two portions of a label, as [punycodeDecode] splits it: the basic
    portion before the last delimiter and the encoded portion after it. *)
Definition basicLength (input : jsstring) : Z :=
  let basic := lastIndexOf input PUNYCODE.delimiter in
  if basic <? 0 then 0 else basic.

Definition basicPortion (input : jsstring) : jsstring :=
  firstn (Z.to_nat (basicLength input)) input.

Definition encodedPortion (input : jsstring) : jsstring :=
  let basic := basicLength input in
  skipn (Z.to_nat (if 0 <? basic then basic + 1 else 0)) input.

(** The reading of an encoded portion, apart from the output.  The outer
    loop of [punycodeDecode] reads [rest] as variable-length integers and
    computes a code point [n] from each; [decoded_run] gives these code
    points in order, and the way the reading ends: [Return tt] at the end
    of [rest], and otherwise the outcome of the integer that could not be
    read.  Of the output only its length [len] enters the arithmetic.  The
    range of the code points is left aside: the loop leaves it to
    [String.fromCodePoint]. *)
Fixpoint decoded_run (fuel : nat) (rest : jsstring) (len i n : Z)
    (bias : number) : list Z * outcome unit :=
  match rest with
  | [] => ([], Return tt)
  | _ :: _ =>
      match fuel with
      | O => ([], OutOfFuel)
      | S fuel' =>
          let oldi := i in
          match decode_integer rest i 1 PUNYCODE.base bias with
          | Return (i, rest') =>
              let outputLength := len + 1 in
              let bias := punycodAdapt (i - oldi) outputLength (oldi =? 0) in
              let n := n + i / outputLength in
              let i := i mod outputLength in
              let run := decoded_run fuel' rest' outputLength (i + 1) n bias in
              (n :: fst run, snd run)
          | Throw e => ([], Throw e)
          | Inexact => ([], Inexact)
          | OutOfFuel => ([], OutOfFuel)
          end
      end
  end.

(** The code points that the integers of the encoded portion of a label
    give, and the way the reading of that portion ends. *)
Definition decodedCodePoints (label : jsstring) : list Z :=
  fst (decoded_run (length (encodedPortion label)) (encodedPortion label)
         (Z.of_nat (length (basicPortion label))) 0 PUNYCODE.initialN
         (Num PUNYCODE.initialBias)).

Definition suffixReading (label : jsstring) : outcome unit :=
  snd (decoded_run (length (encodedPortion label)) (encodedPortion label)
         (Z.of_nat (length (basicPortion label))) 0 PUNYCODE.initialN
         (Num PUNYCODE.initialBias)).


(** A string whose first four code units are x or X, n or N, and two
    hyphens: the prefix [xn--] without regard to case. *)
Definition hasPrefixIgnoringCase (s : jsstring) : Prop :=
  exists a b rest,
    s = a :: b :: 45 :: 45 :: rest
    /\ (a = 120 \/ a = 88) /\ (b = 110 \/ b = 78).

(** The first code unit of the lowercase form of a code unit. *)
Definition firstLower (c : Z) : Z :=
  if (65 <=? c) && (c <=? 90) then c + 32
  else if c =? 304 then 105
  else if c =? 8490 then 107
  else c.

(** The decimal numeral of an integer, as a query string carries it. *)
Fixpoint decimalOf (fuel : nat) (n : Z) (low : jsstring) : jsstring :=
  let low := (48 + n mod 10) :: low in
  match fuel with
  | O => low
  | S fuel' => if n <? 10 then low else decimalOf fuel' (n / 10) low
  end.

Definition decimal (z : Z) : jsstring :=
  if z <? 0 then 45 :: decimalOf (Z.to_nat (Z.log2 (- z))) (- z) []
  else decimalOf (Z.to_nat (Z.log2 z)) z [].

(** The value of a run of decimal digits, read after the value [value]. *)
Definition digitsValue (digits : jsstring) (value : Z) : Z :=
  fold_left (fun value c => 10 * value + (c - 48)) digits value.

(** The five entities of [escapeXml], without their ampersand. *)
Definition entityTails : list jsstring :=
  [str "amp;"; str "lt;"; str "gt;"; str "quot;"; str "apos;"].

(** A host without [Intl.Segmenter], for the examples: the fallback works
    on code points and asks neither for a break rule nor, in the text
    utilities, for the decimal form of a number. *)
Definition fallbackRuntime : Runtime :=
  {| hasSegmenter := false;
     graphemeBreak := fun _ _ => true;
     numberToString := fun _ => [] |}.

(** A host with a segmenter that keeps combining marks (U+0300 to U+036F)
    with the code point before them, for the examples. *)
Definition combiningRuntime : Runtime :=
  {| hasSegmenter := true;
     graphemeBreak := fun _ next =>
       match next with
       | [c] => negb ((768 <=? c) && (c <=? 879))
       | _ => true
       end;
     numberToString := fun _ => [] |}.

(* ================================================================== *)
(** ** Auxiliary definitions of the further properties *)

(** A hex color: a number sign and six of the digits of [hex]. *)
Definition hexColor (s : jsstring) : Prop :=
  exists digits,
    s = 35 :: digits /\ length digits = 6%nat
    /\ Forall (fun c => In c hex) digits.

(** The upper-case form of an ASCII letter. *)
Definition asciiUpper (c : Z) : Z :=
  if (97 <=? c) && (c <=? 122) then c - 32 else c.

(** A Unicode scalar value: a code point that is no surrogate. *)
Definition scalar_value (c : Z) : Prop :=
  0 <= c <= 1114111 /\ ~ (55296 <= c <= 57343).

(** The check of the font size of an avatar of size [z] whose text holds
    [count] graphemes: it is positive and below the size. *)
Definition fontSizeFits (count z : Z) : bool :=
  let fontSize :=
    PrimFloat.div (PrimFloat.mul (numberOf z) DEFAULTS.fontSizeRatio)
                  (numberOf (Z.max count 1)) in
  PrimFloat.ltb 0%float fontSize && PrimFloat.ltb fontSize (numberOf z).


(** The ASCII code units of a string, in their order. *)
Definition asciiUnits (s : jsstring) : jsstring :=
  filter (fun c => c <? 128) s.
(* ================================================================== *)
(** ** Digits and variable-length integers *)

Lemma threshold_bounds k bias :
  1 <= RFC3492.threshold k bias <= 26.
Proof.
  unfold RFC3492.threshold, RFC3492.tmin, RFC3492.tmax.
  destruct (k <=? bias) eqn:E1; [lia|].
  destruct (k >=? bias + 26) eqn:E2; lia.
Qed.

Lemma threshold_Num k bias :
  threshold k (Num bias) = RFC3492.threshold k bias.
Proof. reflexivity. Qed.

Lemma digit_round_trip d :
  0 <= d < 36 ->
  punycodeDigitToBasic (RFC3492.digit_code_point d) = Some d.
Proof.
  intros Hd. unfold RFC3492.digit_code_point, punycodeDigitToBasic.
  destruct (d <? 26) eqn:E.
  - replace ((48 <=? d + 97) && (d + 97 <=? 57)) with false by lia.
    replace ((65 <=? d + 97) && (d + 97 <=? 90)) with false by lia.
    replace ((97 <=? d + 97) && (d + 97 <=? 122)) with true by lia.
    f_equal; lia.
  - replace ((48 <=? d - 26 + 48) && (d - 26 + 48 <=? 57)) with true by lia.
    f_equal; lia.
Qed.

Lemma digit_code_point_range d :
  0 <= d < 36 ->
  let c := RFC3492.digit_code_point d in
  48 <= c <= 57 \/ 97 <= c <= 122.
Proof.
  intros Hd. unfold RFC3492.digit_code_point.
  destruct (d <? 26) eqn:E; lia.
Qed.

Lemma pow2_succ_nat f : 2 ^ Z.of_nat (S f) = 2 * 2 ^ Z.of_nat f.
Proof. rewrite Nat2Z.inj_succ, Z.pow_succ_r by lia. reflexivity. Qed.

Lemma integer_fuel_enough q :
  0 <= q -> q < 2 ^ Z.of_nat (RFC3492.integer_fuel q).
Proof.
  intros Hq. unfold RFC3492.integer_fuel.
  destruct (Z.eq_dec q 0) as [->|Hne].
  - apply Z.pow_pos_nonneg; lia.
  - rewrite Nat2Z.inj_succ, Z2Nat.id by apply Z.log2_nonneg.
    apply Z.log2_spec; lia.
Qed.

(** The quotient and the digit the encoder splits [q] into. *)
Lemma encoder_split q t :
  1 <= t <= 26 -> t <= q ->
  let d := t + (q - t) mod (36 - t) in
  let q' := (q - t) / (36 - t) in
  t <= d < 36 /\ 0 <= q' /\ 2 * q' <= q /\ q = d + (36 - t) * q'.
Proof.
  intros Ht Hq d q'.
  assert (Hm : 0 <= (q - t) mod (36 - t) < 36 - t) by (apply Z.mod_pos_bound; lia).
  assert (Hdm : q - t = (36 - t) * q' + (q - t) mod (36 - t))
    by (apply Z.div_mod; lia).
  assert (Hq' : 0 <= q') by (apply Z.div_pos; lia).
  subst d. repeat split; try lia.
  nia.
Qed.

(** The decoder reads back the integer the encoder wrote, and stops at
    its last digit. *)
Lemma decode_encode_integer fuel :
  forall q k bias i w tail,
    0 <= q < 2 ^ Z.of_nat fuel -> 0 <= w -> 0 <= i ->
    i + q * w <= MAX_SAFE_INTEGER ->
    decode_integer (RFC3492.encode_integer fuel q k bias ++ tail)
                   i w k (Num bias)
    = Return (i + q * w, tail).
Proof.
  induction fuel as [|f IH]; intros q k bias i w tail Hq Hw Hi Hsafe.
  - assert (q = 0) by (change (2 ^ Z.of_nat 0) with 1 in Hq; lia). subst q.
    pose proof (threshold_bounds k bias) as Ht.
    cbn [RFC3492.encode_integer].
    replace (0 <? RFC3492.threshold k bias) with true by lia.
    cbn [app decode_integer]. rewrite digit_round_trip by lia.
    unfold safe. replace (i + 0 * w <=? MAX_SAFE_INTEGER) with true by lia.
    cbn [bind]. rewrite threshold_Num.
    replace (0 <? RFC3492.threshold k bias) with true by lia. reflexivity.
  - pose proof (threshold_bounds k bias) as Ht.
    cbn [RFC3492.encode_integer].
    destruct (q <? RFC3492.threshold k bias) eqn:E.
    + cbn [app decode_integer]. rewrite digit_round_trip by lia.
      unfold safe. replace (i + q * w <=? MAX_SAFE_INTEGER) with true by lia.
      cbn [bind]. rewrite threshold_Num, E. reflexivity.
    + set (t := RFC3492.threshold k bias) in *.
      change RFC3492.base with 36.
      destruct (encoder_split q t) as (Hd & Hq' & Hhalf & Heq); [lia|lia|].
      set (d := t + (q - t) mod (36 - t)) in *.
      set (q' := (q - t) / (36 - t)) in *.
      cbn [app decode_integer]. rewrite digit_round_trip by lia.
      assert (Hprod : 0 <= (36 - t) * q') by (apply Z.mul_nonneg_nonneg; lia).
      assert (Hdw : d * w <= q * w) by (apply Z.mul_le_mono_nonneg_r; lia).
      unfold safe. replace (i + d * w <=? MAX_SAFE_INTEGER) with true by lia.
      cbn [bind]. rewrite threshold_Num. fold t.
      replace (d <? t) with false by lia.
      change PUNYCODE.base with 36.
      assert (Hsum : i + d * w + q' * (w * (36 - t)) = i + q * w)
        by (clearbody d q'; subst q; ring).
      rewrite IH.
      * rewrite Hsum. reflexivity.
      * rewrite pow2_succ_nat in Hq. lia.
      * apply Z.mul_nonneg_nonneg; lia.
      * assert (0 <= d * w) by (apply Z.mul_nonneg_nonneg; lia). lia.
      * rewrite Hsum. exact Hsafe.
Qed.

(** The digits of an integer are letters and decimal digits. *)
Lemma encode_integer_digits fuel :
  forall q k bias, 0 <= q ->
    Forall (fun c => 48 <= c <= 57 \/ 97 <= c <= 122)
           (RFC3492.encode_integer fuel q k bias).
Proof.
  induction fuel as [|f IH]; intros q k bias Hq;
    pose proof (threshold_bounds k bias) as Ht;
    cbn [RFC3492.encode_integer];
    destruct (q <? RFC3492.threshold k bias) eqn:E.
  - constructor; [apply digit_code_point_range; lia | constructor].
  - constructor.
  - constructor; [apply digit_code_point_range; lia | constructor].
  - change RFC3492.base with 36.
    destruct (encoder_split q (RFC3492.threshold k bias))
      as (Hd & Hq' & _ & _); [lia|lia|].
    constructor.
    + apply digit_code_point_range. lia.
    + apply IH. exact Hq'.
Qed.

(* ================================================================== *)
(** ** Bias adaptation: the source against the RFC *)

Lemma adapt_loop_while fuel :
  forall delta k, adapt_loop fuel delta k = RFC3492.adapt_while fuel delta k.
Proof.
  induction fuel as [|f IH]; intros delta k; [reflexivity|].
  cbn [adapt_loop RFC3492.adapt_while].
  change (Z.shiftr ((PUNYCODE.base - PUNYCODE.tMin) * PUNYCODE.tMax) 1) with 455.
  change ((RFC3492.base - RFC3492.tmin) * RFC3492.tmax / 2) with 455.
  rewrite IH. reflexivity.
Qed.

Lemma adapt_while_nonneg fuel :
  forall delta k, 0 <= delta -> 0 <= fst (RFC3492.adapt_while fuel delta k).
Proof.
  induction fuel as [|f IH]; intros delta k Hd; [exact Hd|].
  cbn [RFC3492.adapt_while].
  destruct (delta >? _); [|exact Hd].
  apply IH. apply Z.div_pos; [exact Hd|reflexivity].
Qed.

(** The fuel of [punycodAdapt] lets its loop run to its end. *)
Lemma adapt_loop_exits fuel :
  forall delta k,
    delta < 456 * 2 ^ Z.of_nat fuel ->
    fst (adapt_loop fuel delta k) <= 455.
Proof.
  induction fuel as [|f IH]; intros delta k H.
  - change (2 ^ Z.of_nat 0) with 1 in H. cbn [adapt_loop fst]. lia.
  - cbn [adapt_loop].
    change (Z.shiftr ((PUNYCODE.base - PUNYCODE.tMin) * PUNYCODE.tMax) 1)
      with 455.
    destruct (delta >? 455) eqn:E; [|cbn [fst]; lia].
    apply IH. rewrite pow2_succ_nat in H.
    change (PUNYCODE.base - PUNYCODE.tMin) with 35.
    apply Z.div_lt_upper_bound; lia.
Qed.

Lemma adapt_fuel_enough delta k :
  fst (adapt_loop (adapt_fuel delta) delta k) <= 455.
Proof.
  apply adapt_loop_exits. unfold adapt_fuel.
  rewrite Z2Nat.id by apply Z.log2_nonneg.
  destruct (Z.le_gt_cases delta 0) as [Hle|Hgt].
  - assert (0 < 2 ^ Z.log2 delta) by (apply Z.pow_pos_nonneg; [lia | apply Z.log2_nonneg]).
    lia.
  - pose proof (Z.log2_spec delta Hgt) as H.
    rewrite Z.pow_succ_r in H by apply Z.log2_nonneg. lia.
Qed.

Lemma toInt32_small z : 0 <= z < 2 ^ 31 -> toInt32 z = z.
Proof.
  intros Hz. unfold toInt32.
  rewrite Z.mod_small by lia.
  replace (z <? 2 ^ 31) with true by lia. reflexivity.
Qed.

(** Below 2^31 the 32-bit shift of the source is the halving of the RFC. *)
Lemma punycodAdapt_rfc delta numPoints firstTime :
  0 <= delta < 2 ^ 31 -> 1 <= numPoints ->
  punycodAdapt delta numPoints firstTime
  = Num (RFC3492.adapt delta numPoints firstTime).
Proof.
  intros Hd Hn. unfold punycodAdapt, RFC3492.adapt, adapt_fuel.
  rewrite toInt32_small by exact Hd.
  rewrite Z.shiftr_div_pow2 by lia. change (2 ^ 1) with 2.
  change PUNYCODE.damp with RFC3492.damp.
  set (d1 := if firstTime then delta / RFC3492.damp else delta / 2).
  assert (Hd1 : 0 <= d1)
    by (subst d1; destruct firstTime; apply Z.div_pos; try lia; reflexivity).
  assert (Hd2 : 0 <= d1 + d1 / numPoints)
    by (assert (0 <= d1 / numPoints) by (apply Z.div_pos; lia); lia).
  rewrite adapt_loop_while.
  pose proof (adapt_while_nonneg (Z.to_nat (Z.log2 (d1 + d1 / numPoints)))
                (d1 + d1 / numPoints) 0 Hd2) as Hnn.
  destruct (RFC3492.adapt_while _ _ _) as [d3 k]. cbn [fst] in Hnn.
  change PUNYCODE.skew with 38.
  replace (d3 + 38 =? 0) with false by lia.
  reflexivity.
Qed.

(* ================================================================== *)
(** ** The loops of the decoder terminate *)

Lemma decode_integer_shorter rest :
  forall i w k bias i' rest',
    decode_integer rest i w k bias = Return (i', rest') ->
    (length rest' < length rest)%nat.
Proof.
  induction rest as [|c rest IH]; intros i w k bias i' rest' H;
    cbn [decode_integer] in H; [discriminate|].
  destruct (punycodeDigitToBasic c) as [digit|]; [|discriminate].
  unfold safe in H. destruct (i + digit * w <=? MAX_SAFE_INTEGER);
    cbn [bind] in H; [|discriminate].
  destruct (digit <? threshold k bias).
  - injection H as _ <-. cbn [length]. lia.
  - apply IH in H. cbn [length]. lia.
Qed.

(** Any fuel that covers the rest of the input gives the same result. *)
Lemma decode_loop_fuel fuel :
  forall fuel' rest output i n bias,
    (length rest <= fuel)%nat -> (length rest <= fuel')%nat ->
    decode_loop fuel rest output i n bias
    = decode_loop fuel' rest output i n bias.
Proof.
  induction fuel as [|f IH]; intros fuel' rest output i n bias H1 H2.
  - destruct rest; [destruct fuel'; reflexivity | cbn [length] in H1; lia].
  - destruct rest as [|c rest]; [destruct fuel'; reflexivity|].
    destruct fuel' as [|f']; [cbn [length] in H2; lia|].
    cbn [decode_loop].
    destruct (decode_integer (c :: rest) i 1 PUNYCODE.base bias)
      as [[i' rest']| | |] eqn:E; cbn [bind]; try reflexivity.
    apply decode_integer_shorter in E.
    destruct (fromCodePoint _); cbn [bind]; try reflexivity.
    apply IH; cbn [length] in *; lia.
Qed.


Lemma decode_from_nil output i n bias :
  decode_from [] output i n bias = Return (join output).
Proof. reflexivity. Qed.

(** One turn of the outer loop. *)
Lemma decode_from_step rest output i n bias i' rest' :
  decode_integer rest i 1 PUNYCODE.base bias = Return (i', rest') ->
  decode_from rest output i n bias
  = (let outputLength := Z.of_nat (length output) + 1 in
     ch <- fromCodePoint (n + i' / outputLength) ;;
     decode_from rest' (splice output (i' mod outputLength) ch)
       (i' mod outputLength + 1) (n + i' / outputLength)
       (punycodAdapt (i' - i) outputLength (i =? 0))).
Proof.
  intros H. unfold decode_from.
  destruct rest as [|c rest]; [discriminate|].
  cbn [length decode_loop]. rewrite H. cbn [bind].
  apply decode_integer_shorter in H. cbv zeta.
  destruct (fromCodePoint _); cbn [bind]; try reflexivity.
  apply decode_loop_fuel; cbn [length] in *; lia.
Qed.

Lemma decode_integer_total rest :
  forall i w k bias, decode_integer rest i w k bias <> OutOfFuel.
Proof.
  induction rest as [|c rest IH]; intros i w k bias;
    cbn [decode_integer]; [discriminate|].
  destruct (punycodeDigitToBasic c); [|discriminate].
  unfold safe. destruct (_ <=? _); cbn [bind]; [|discriminate].
  destruct (_ <? _); [discriminate|]. apply IH.
Qed.

Lemma fromCodePoint_total n : fromCodePoint n <> OutOfFuel.
Proof.
  unfold fromCodePoint.
  destruct (_ || _); [discriminate|]. destruct (_ <=? _); discriminate.
Qed.

Lemma decode_loop_total fuel :
  forall rest output i n bias,
    (length rest <= fuel)%nat ->
    decode_loop fuel rest output i n bias <> OutOfFuel.
Proof.
  induction fuel as [|f IH]; intros rest output i n bias H.
  - destruct rest; [discriminate | cbn [length] in H; lia].
  - destruct rest as [|c rest]; [discriminate|].
    cbn [decode_loop].
    pose proof (decode_integer_total (c :: rest) i 1 PUNYCODE.base bias) as Hint.
    destruct (decode_integer (c :: rest) i 1 PUNYCODE.base bias)
      as [[i' rest']| | |] eqn:E; cbn [bind]; try discriminate;
      [|contradiction].
    apply decode_integer_shorter in E.
    match goal with |- context [fromCodePoint ?m] =>
      pose proof (fromCodePoint_total m) as Hcp;
      destruct (fromCodePoint m) end; cbn [bind]; try discriminate;
      [|contradiction].
    apply IH; cbn [length] in *; lia.
Qed.

(* ================================================================== *)
(** ** One insertion *)


Lemma fromCodePoint_code_point n :
  code_point n -> fromCodePoint n = Return (utf16_code_point n).
Proof.
  intros [H0 H1]. unfold fromCodePoint, utf16_code_point.
  replace ((n <? 0) || (1114111 <? n)) with false by lia.
  destruct (n <=? 65535); reflexivity.
Qed.

Lemma splice_cells s (pos : nat) c :
  splice (cells s) (Z.of_nat pos) (utf16_code_point c)
  = cells (firstn pos s ++ c :: skipn pos s).
Proof.
  unfold splice, cells. rewrite Nat2Z.id.
  rewrite map_app. cbn [map]. rewrite firstn_map, skipn_map. reflexivity.
Qed.

(** The decoder reads the delta the encoder wrote for a code point [n]
    that belongs at position [pos], and inserts [n] there. *)
Lemma decode_insertion s (pos : nat) n delta bias i_d n_d tail :
  let h := Z.of_nat (length s) in
  (pos <= length s)%nat ->
  delta = (n - n_d) * (h + 1) + (Z.of_nat pos - i_d) ->
  0 <= delta < 2 ^ 31 -> 0 <= i_d -> i_d + delta <= MAX_SAFE_INTEGER ->
  code_point n ->
  decode_from
    (RFC3492.encode_integer (RFC3492.integer_fuel delta) delta RFC3492.base bias
       ++ tail)
    (cells s) i_d n_d (Num bias)
  = decode_from tail (cells (firstn pos s ++ n :: skipn pos s))
      (Z.of_nat pos + 1) n
      (Num (RFC3492.adapt delta (h + 1) (i_d =? 0))).
Proof.
  intros h Hpos Hdelta Hrange Hi Hsafe Hn.
  assert (Hint :
    decode_integer
      (RFC3492.encode_integer (RFC3492.integer_fuel delta) delta RFC3492.base
         bias ++ tail) i_d 1 PUNYCODE.base (Num bias)
    = Return (i_d + delta * 1, tail)).
  { apply decode_encode_integer; try lia.
    split; [lia | apply integer_fuel_enough; lia]. }
  rewrite (decode_from_step _ _ _ _ _ _ _ Hint). cbv zeta.
  replace (Z.of_nat (length (cells s))) with h
    by (unfold cells; rewrite length_map; reflexivity).
  assert (Hi' : i_d + delta * 1 = (n - n_d) * (h + 1) + Z.of_nat pos) by lia.
  assert (Hh : 0 <= Z.of_nat pos < h + 1) by lia.
  assert (Hdiv : (i_d + delta * 1) / (h + 1) = n - n_d).
  { rewrite Hi'. rewrite Z.div_add_l by lia. rewrite Z.div_small by lia. lia. }
  assert (Hmod : (i_d + delta * 1) mod (h + 1) = Z.of_nat pos).
  { rewrite Hi'. rewrite Z.add_comm, Z.mod_add by lia. apply Z.mod_small; lia. }
  rewrite Hdiv, Hmod.
  replace (n_d + (n - n_d)) with n by lia.
  rewrite fromCodePoint_code_point by exact Hn. cbn [bind].
  rewrite splice_cells.
  replace (i_d + delta * 1 - i_d) with delta by lia.
  rewrite punycodAdapt_rfc by lia.
  reflexivity.
Qed.

(* ================================================================== *)
(** ** A pass of the encoder, read by the decoder *)

Lemma decoded_below n pre c rest :
  c < n ->
  decoded n (pre ++ [c]) rest = decoded n pre (c :: rest)
  /\ position n (pre ++ [c]) = S (position n pre).
Proof.
  intros H. unfold decoded, position. rewrite filter_app. cbn [filter].
  replace (c <=? n) with true by lia. replace (c <? n) with true by lia.
  rewrite <- app_assoc, length_app. cbn [app length]. split; [reflexivity|lia].
Qed.

Lemma decoded_above n pre c rest :
  n < c ->
  decoded n (pre ++ [c]) rest = decoded n pre (c :: rest)
  /\ position n (pre ++ [c]) = position n pre.
Proof.
  intros H. unfold decoded, position. rewrite filter_app. cbn [filter].
  replace (c <=? n) with false by lia. replace (c <? n) with false by lia.
  rewrite app_nil_r. split; reflexivity.
Qed.

Lemma decoded_here n pre rest :
  let s := decoded n pre (n :: rest) in
  let pos := position n pre in
  decoded n (pre ++ [n]) rest = firstn pos s ++ n :: skipn pos s
  /\ position n (pre ++ [n]) = S pos
  /\ (pos <= length s)%nat.
Proof.
  unfold decoded, position. rewrite filter_app. cbn [filter].
  replace (n <=? n) with true by lia. replace (n <? n) with false by lia.
  set (l1 := filter (fun c => c <=? n) pre).
  set (l2 := filter (fun c => c <? n) rest).
  rewrite firstn_app, skipn_app, Nat.sub_diag, firstn_all, skipn_all.
  cbn [firstn skipn]. rewrite app_nil_r, <- app_assoc. cbn [app].
  rewrite !length_app. cbn [length]. repeat split; lia.
Qed.

Section Pass.

Variables maxint b : Z.
Hypothesis maxint_31 : maxint <= 2 ^ 31 - 1.

Lemma encode_pass_decoded rest :
  forall pre n delta bias h digits delta' bias' h' i_d n_d tail,
    Forall code_point rest ->
    Z.of_nat (length (pre ++ rest)) < 2 ^ 32 ->
    RFC3492.encode_pass maxint rest n delta bias h b
      = Some (digits, (delta', bias', h')) ->
    in_step maxint b n delta h pre rest i_d n_d ->
    exists i_d' n_d',
      in_step maxint b n delta' h' (pre ++ rest) [] i_d' n_d'
      /\ decode_from (digits ++ tail) (cells (decoded n pre rest))
           i_d n_d (Num bias)
         = decode_from tail (cells (decoded n (pre ++ rest) []))
             i_d' n_d' (Num bias').
Proof.
  induction rest as [|c rest IH];
    intros pre n delta bias h digits delta' bias' h' i_d n_d tail
           Hcp Hlen Henc Hst.
  - cbn [RFC3492.encode_pass] in Henc. injection Henc as <- <- <- <-.
    exists i_d, n_d. rewrite app_nil_r. split; [exact Hst|reflexivity].
  - assert (Hlen' : Z.of_nat (length ((pre ++ [c]) ++ rest)) < 2 ^ 32)
      by (rewrite <- app_assoc; exact Hlen).
    assert (Hin : code_point c) by (inversion Hcp; assumption).
    assert (Hcp' : Forall code_point rest) by (inversion Hcp; assumption).
    replace (pre ++ c :: rest) with ((pre ++ [c]) ++ rest)
      by (rewrite <- app_assoc; reflexivity).
    destruct Hst as [Hh Hdelta Hrange Hi Hfirst Hb].
    cbn [RFC3492.encode_pass] in Henc.
    destruct (c <? n) eqn:Elt.
    + (* a code point already written: the encoder counts it *)
      destruct (delta <? maxint) eqn:Emax; [|discriminate].
      replace (c =? n) with false in Henc by lia.
      destruct (decoded_below n pre c rest) as [Hdec Hpos]; [lia|].
      rewrite <- Hdec.
      apply (IH (pre ++ [c]) n (delta + 1) bias h digits delta' bias' h'
               i_d n_d tail Hcp' Hlen' Henc).
      constructor; rewrite ?Hdec, ?Hpos; try assumption; lia.
    + destruct (c =? n) eqn:Eeq.
      * (* the code point the encoder writes now *)
        assert (c = n) by lia. subst c.
        destruct (RFC3492.encode_pass maxint rest n 0 _ (h + 1) b)
          as [[digits0 [[d0 b0] h0]]|] eqn:Erec; [|discriminate].
        set (enc := RFC3492.encode_integer _ _ _ _) in Henc.
        injection Henc as <- <- <- <-. subst enc.
        destruct (decoded_here n pre rest) as (Hdec & Hpos & Hle).
        rewrite <- (app_assoc _ digits0 tail).
        assert (Hlen_s : Z.of_nat (length (decoded n pre (n :: rest)))
                         < 2 ^ 32).
        { unfold decoded. rewrite length_app.
          pose proof (filter_length_le (fun c => c <=? n) pre).
          pose proof (filter_length_le (fun c => c <? n) (n :: rest)).
          rewrite length_app in Hlen. lia. }
        pose proof (decode_insertion (decoded n pre (n :: rest))
                   (position n pre) n delta bias i_d n_d (digits0 ++ tail))
          as Hins.
        cbv zeta in Hins. rewrite <- Hh in Hins.
        rewrite Hins; try assumption; try lia;
          [| unfold MAX_SAFE_INTEGER; lia ].
        clear Hins.
        rewrite <- Hdec, <- Hfirst.
        apply (IH (pre ++ [n]) n 0 _ (h + 1) digits0 _ _ _
                 _ n tail Hcp' Hlen' Erec).
        constructor; rewrite ?Hpos.
        -- rewrite Hdec, length_app. cbn [length].
           rewrite length_firstn, length_skipn. lia.
        -- lia.
        -- lia.
        -- lia.
        -- replace (h + 1 =? b) with false by lia.
           symmetry. apply Z.eqb_neq. lia.
        -- lia.
      * (* a code point still to come *)
        destruct (decoded_above n pre c rest) as [Hdec Hpos]; [lia|].
        rewrite <- Hdec.
        apply (IH (pre ++ [c]) n delta bias h digits delta' bias' h'
                 i_d n_d tail Hcp' Hlen' Henc).
        constructor; rewrite ?Hdec, ?Hpos; try assumption; lia.
Qed.

End Pass.

(* ================================================================== *)
(** ** The whole encoder, read by the decoder *)

Lemma minimum_from_none n input :
  RFC3492.minimum_from n input = None -> forall c, In c input -> c < n.
Proof.
  induction input as [|a input IH]; intros H c Hc; [destruct Hc|].
  cbn [RFC3492.minimum_from] in H.
  destruct (RFC3492.minimum_from n input) as [m|].
  - destruct (_ && _); discriminate.
  - destruct (n <=? a) eqn:E; [discriminate|].
    destruct Hc as [<-|Hc]; [lia | exact (IH eq_refl c Hc)].
Qed.

Lemma minimum_from_spec n input :
  forall m, RFC3492.minimum_from n input = Some m ->
    n <= m /\ In m input /\ (forall c, In c input -> n <= c -> m <= c).
Proof.
  induction input as [|a input IH]; intros m H; cbn [RFC3492.minimum_from] in H;
    [discriminate|].
  destruct (RFC3492.minimum_from n input) as [m0|] eqn:E0.
  - destruct (IH m0 eq_refl) as (H1 & H2 & H3).
    destruct ((n <=? a) && (a <? m0)) eqn:E; injection H as <-.
    + repeat split; [lia | left; reflexivity |].
      intros c [<-|Hc] Hn; [lia|]. specialize (H3 c Hc Hn). lia.
    + repeat split; [exact H1 | right; exact H2 |].
      intros c [<-|Hc] Hn; [lia|]. exact (H3 c Hc Hn).
  - destruct (n <=? a) eqn:E; [|discriminate]. injection H as <-.
    repeat split; [lia | left; reflexivity |].
    intros c [<-|Hc] Hn; [lia|].
    pose proof (minimum_from_none n input E0 c Hc). lia.
Qed.

Lemma filter_below_gap n m input :
  n <= m -> (forall c, In c input -> n <= c -> m <= c) ->
  filter (fun c => c <? m) input = filter (fun c => c <? n) input.
Proof.
  intros Hnm Hgap. apply filter_ext_in. intros c Hc.
  specialize (Hgap c Hc). lia.
Qed.

Lemma decoded_start n input :
  decoded n [] input = filter (fun c => c <? n) input.
Proof. reflexivity. Qed.

Lemma decoded_end n input :
  decoded n input [] = decoded (n + 1) [] input
  /\ position n input = length (decoded n input []).
Proof.
  unfold decoded, position. cbn [filter app]. rewrite app_nil_r.
  split; [|reflexivity].
  apply filter_ext. intros c. lia.
Qed.

Lemma filter_all {A} (p : A -> bool) (l : list A) :
  (length l <= length (filter p l))%nat -> filter p l = l.
Proof.
  induction l as [|a l IH]; intros H; [reflexivity|].
  cbn [filter length] in *. pose proof (filter_length_le p l) as Hle.
  destruct (p a); cbn [length] in H; [|lia].
  f_equal. apply IH. lia.
Qed.

Section Whole.

Variables maxint b : Z.
Hypothesis maxint_31 : maxint <= 2 ^ 31 - 1.
Variable input : list Z.
Hypothesis input_code_points : Forall code_point input.
Hypothesis input_length : Z.of_nat (length input) < 2 ^ 32.

Lemma encode_while_decoded fuel :
  forall n delta bias h digits i_d n_d bound,
    RFC3492.encode_while fuel maxint input n delta bias h b = Some digits ->
    in_step bound b n delta h [] input i_d n_d ->
    decode_from digits (cells (decoded n [] input)) i_d n_d (Num bias)
    = Return (utf16 input).
Proof.
  induction fuel as [|f IH];
    intros n delta bias h digits i_d n_d bound Henc Hst;
    cbn [RFC3492.encode_while] in Henc;
    destruct (h <? Z.of_nat (length input)) eqn:Eh; try discriminate.
  1, 3:
    injection Henc as <-; rewrite decode_from_nil;
    destruct Hst as [Hh _ _ _ _ _]; rewrite decoded_start in *;
    rewrite filter_all by lia; reflexivity.
  destruct (RFC3492.minimum_from n input) as [m|] eqn:Em; [|discriminate].
  destruct (m - n >? (maxint - delta) / (h + 1)) eqn:Eover; [discriminate|].
  destruct (RFC3492.encode_pass maxint input m _ bias h b)
    as [[digits1 [[delta1 bias1] h1]]|] eqn:Epass; [|discriminate].
  destruct (RFC3492.encode_while f maxint input (m + 1) (delta1 + 1) bias1 h1 b)
    as [more|] eqn:Emore; [|discriminate].
  injection Henc as <-.
  destruct (minimum_from_spec n input m Em) as (Hnm & _ & Hgap).
  destruct Hst as [Hh Hdelta Hrange Hi Hfirst Hb].
  assert (Hsame : decoded m [] input = decoded n [] input)
    by (rewrite !decoded_start; apply filter_below_gap; assumption).
  assert (Hmul : (h + 1) * ((maxint - delta) / (h + 1)) <= maxint - delta)
    by (apply Z.mul_div_le; lia).
  assert (Hgrow : 0 <= (m - n) * (h + 1)) by (apply Z.mul_nonneg_nonneg; lia).
  assert (Hfit : (m - n) * (h + 1) <= maxint - delta).
  { assert ((h + 1) * (m - n) <= (h + 1) * ((maxint - delta) / (h + 1)))
      by (apply Z.mul_le_mono_nonneg_l; lia). lia. }
  destruct (encode_pass_decoded maxint b maxint_31 input [] m
              (delta + (m - n) * (h + 1)) bias h digits1 delta1 bias1 h1
              i_d n_d more input_code_points input_length Epass)
    as (i_d' & n_d' & Hst' & Hdec).
  { constructor; rewrite ?Hsame; try assumption; try lia.
    cbn [position filter length] in *. lia. }
  rewrite <- Hsame, Hdec. cbn [app] in *.
  destruct (decoded_end m input) as [Hnext Hpos].
  rewrite Hnext.
  destruct Hst' as [Hh' Hdelta' Hrange' Hi' Hfirst' Hb'].
  apply (IH (m + 1) (delta1 + 1) bias1 h1 more i_d' n_d' (maxint + 1) Emore).
  constructor; rewrite <- ?Hnext; try assumption; try lia.
  cbn [position filter length]. rewrite Hpos, <- Hh' in Hdelta'. lia.
Qed.

End Whole.

(* ================================================================== *)
(** ** The label: basic code points, delimiter, digits *)

Lemma encode_pass_digits maxint b rest :
  forall n delta bias h digits delta' bias' h',
    0 <= delta ->
    RFC3492.encode_pass maxint rest n delta bias h b
      = Some (digits, (delta', bias', h')) ->
    Forall (fun c => 48 <= c <= 57 \/ 97 <= c <= 122) digits
    /\ 0 <= delta' /\ h <= h'.
Proof.
  induction rest as [|c rest IH];
    intros n delta bias h digits delta' bias' h' Hd H;
    cbn [RFC3492.encode_pass] in H.
  - injection H as <- <- <- <-. repeat split; [constructor|lia|lia].
  - destruct (c <? n) eqn:Elt.
    + destruct (delta <? maxint); [|discriminate].
      replace (c =? n) with false in H by lia.
      apply IH in H; [exact H|lia].
    + destruct (c =? n).
      * destruct (RFC3492.encode_pass maxint rest n 0 _ (h + 1) b)
          as [[digits0 [[d0 b0] h0]]|] eqn:Erec; [|discriminate].
        set (enc := RFC3492.encode_integer _ _ _ _) in H.
        injection H as <- <- <- <-. subst enc.
        apply IH in Erec; [|lia]. destruct Erec as (Hdig & Hd0 & Hh0).
        repeat split; [|lia|lia].
        apply Forall_app. split; [|exact Hdig].
        apply encode_integer_digits. exact Hd.
      * apply IH in H; [exact H|lia].
Qed.

Lemma encode_while_digits maxint b input fuel :
  forall n delta bias h digits,
    0 <= delta -> 0 <= h ->
    RFC3492.encode_while fuel maxint input n delta bias h b = Some digits ->
    Forall (fun c => 48 <= c <= 57 \/ 97 <= c <= 122) digits.
Proof.
  induction fuel as [|f IH]; intros n delta bias h digits Hd Hh H;
    cbn [RFC3492.encode_while] in H;
    destruct (h <? Z.of_nat (length input)); try discriminate.
  1, 3: injection H as <-; constructor.
  destruct (RFC3492.minimum_from n input) as [m|] eqn:Em; [|discriminate].
  destruct (m - n >? _); [discriminate|].
  destruct (RFC3492.encode_pass maxint input m _ bias h b)
    as [[digits1 [[delta1 bias1] h1]]|] eqn:Epass; [|discriminate].
  destruct (RFC3492.encode_while f maxint input (m + 1) (delta1 + 1) bias1 h1 b)
    as [more|] eqn:Emore; [|discriminate].
  injection H as <-.
  destruct (minimum_from_spec n input m Em) as (Hnm & _ & _).
  assert (0 <= (m - n) * (h + 1)) by (apply Z.mul_nonneg_nonneg; lia).
  apply encode_pass_digits in Epass; [|lia].
  destruct Epass as (Hdig & Hd1 & Hh1).
  apply Forall_app. split; [exact Hdig|].
  apply (IH (m + 1) (delta1 + 1) bias1 h1 more); [lia | lia | exact Emore].
Qed.

Lemma lastIndexOf_absent input c :
  Forall (fun a => a <> c) input -> lastIndexOf input c = -1.
Proof.
  induction 1 as [|a input Ha _ IH]; [reflexivity|].
  cbn [lastIndexOf]. rewrite IH.
  replace (0 <=? -1) with false by reflexivity.
  replace (a =? c) with false by lia. reflexivity.
Qed.

Lemma lastIndexOf_last before c after :
  Forall (fun a => a <> c) after ->
  lastIndexOf (before ++ c :: after) c = Z.of_nat (length before).
Proof.
  intros H. induction before as [|a before IH].
  - cbn [app lastIndexOf length]. rewrite lastIndexOf_absent by exact H.
    replace (0 <=? -1) with false by reflexivity.
    rewrite Z.eqb_refl. reflexivity.
  - cbn [app lastIndexOf]. rewrite IH.
    replace (0 <=? Z.of_nat (length before)) with true by lia.
    cbn [length]. lia.
Qed.

Lemma copy_basic_cells basic :
  Forall (fun c => c < 128) basic -> copy_basic basic = Return (cells basic).
Proof.
  induction 1 as [|c basic Hc _ IH]; [reflexivity|].
  cbn [copy_basic]. replace (c >=? 128) with false by lia.
  rewrite IH. cbn [bind cells map]. unfold utf16_code_point.
  replace (c <=? 65535) with true by lia. reflexivity.
Qed.

Lemma filter_basic_below input :
  Forall (fun c => c < 128) (filter RFC3492.is_basic input).
Proof.
  apply Forall_forall. intros c Hc. apply filter_In in Hc.
  destruct Hc as [_ Hc]. unfold RFC3492.is_basic in Hc. lia.
Qed.

(** C1 (amended).  For every sequence [x] of Unicode code points (fewer
    than 2^32 of them) that a reference encoder of RFC 3492 whose integers
    have at most 31 bits ([maxint <= 2^31 - 1]) encodes to a label,
    [punycodeDecode] applied to that label returns the string [x]. *)
Theorem decoder_inverts_encoder maxint (x : list Z) (label : jsstring) :
  maxint <= 2 ^ 31 - 1 ->
  Forall code_point x ->
  Z.of_nat (length x) < 2 ^ 32 ->
  RFC3492.encode maxint x = Some label ->
  punycodeDecode label = Return (utf16 x).
Proof.
  intros Hmax Hcp Hlen Henc. unfold RFC3492.encode in Henc.
  set (basic := filter RFC3492.is_basic x) in *.
  set (b := Z.of_nat (length basic)) in *.
  destruct (RFC3492.encode_while (length x) maxint x RFC3492.initial_n 0
              RFC3492.initial_bias b b) as [digits|] eqn:Ewhile;
    [|discriminate].
  injection Henc as <-.
  assert (Hdigits : Forall (fun a => a <> PUNYCODE.delimiter) digits).
  { apply encode_while_digits in Ewhile; [|lia|lia].
    eapply Forall_impl; [|exact Ewhile].
    cbv beta. unfold PUNYCODE.delimiter. lia. }
  assert (Hrun :
    decode_from digits (cells basic) 0 PUNYCODE.initialN
      (Num PUNYCODE.initialBias) = Return (utf16 x)).
  { apply (encode_while_decoded maxint b Hmax x Hcp Hlen (length x)
             RFC3492.initial_n 0 RFC3492.initial_bias b digits 0
             RFC3492.initial_n 0 Ewhile).
    constructor.
    - reflexivity.
    - cbn [position filter length]. lia.
    - lia.
    - lia.
    - rewrite Z.eqb_refl. reflexivity.
    - lia. }
  unfold punycodeDecode.
  destruct (0 <? b) eqn:Eb.
  - change RFC3492.delimiter with PUNYCODE.delimiter. cbn [app].
    rewrite lastIndexOf_last by exact Hdigits. fold b.
    replace (b <? 0) with false by lia. rewrite Eb.
    replace (Z.to_nat b) with (length basic) by (subst b; lia).
    replace (Z.to_nat (b + 1)) with (length basic + 1)%nat by (subst b; lia).
    rewrite firstn_app, Nat.sub_diag, firstn_all. cbn [firstn].
    rewrite app_nil_r.
    rewrite copy_basic_cells by apply filter_basic_below. cbn [bind].
    rewrite skipn_app, skipn_all2 by lia.
    replace (length basic + 1 - length basic)%nat with 1%nat by lia.
    cbn [skipn app]. exact Hrun.
  - assert (basic = []) as Hnil by (destruct basic; [reflexivity | cbn [length] in b; lia]).
    rewrite Hnil in *. cbn [app].
    rewrite lastIndexOf_absent by exact Hdigits.
    cbn [Z.ltb Z.compare Z.to_nat firstn copy_basic bind skipn].
    exact Hrun.
Qed.

(** The reference encoder reproduces sample strings of RFC 3492, section
    7.1: (A) Arabic, (B) Chinese and (L) a label with basic code points. *)
Example rfc3492_sample_A :
  RFC3492.encode (2 ^ 31 - 1)
    [1604; 1610; 1607; 1605; 1575; 1576; 1578; 1603; 1604; 1605; 1608;
     1588; 1593; 1585; 1576; 1610; 1567]
  = Some (str "egbpdaj6bu4bxfgehfvwxn").
Proof. vm_compute. reflexivity. Qed.

Example rfc3492_sample_B :
  RFC3492.encode (2 ^ 31 - 1)
    [20182; 20204; 20026; 20160; 20040; 19981; 35828; 20013; 25991]
  = Some (str "ihqwcrb4cv8a8dqg056pqjye").
Proof. vm_compute. reflexivity. Qed.

Example rfc3492_sample_L :
  RFC3492.encode (2 ^ 31 - 1)
    [51; 24180; 66; 32068; 37329; 20843; 20808; 29983]
  = Some (str "3B-ww4c5e180e575a65lsy2b").
Proof. vm_compute. reflexivity. Qed.

Lemma jsstring_eqb_refl s : jsstring_eqb s s = true.
Proof.
  induction s as [|a s IH]; [reflexivity|].
  cbn [jsstring_eqb]. rewrite Z.eqb_refl, IH. reflexivity.
Qed.

Lemma jsstring_eqb_eq s p : jsstring_eqb s p = true <-> s = p.
Proof.
  split; [|intros ->; apply jsstring_eqb_refl].
  revert p. induction s as [|a s IH]; intros [|b p] H;
    cbn [jsstring_eqb] in H; try discriminate; [reflexivity|].
  apply andb_true_iff in H. destruct H as [Hab Hsp].
  apply Z.eqb_eq in Hab. apply IH in Hsp. congruence.
Qed.

Lemma code_point_forallb x :
  forallb (fun c => (0 <=? c) && (c <=? 1114111)) x = true ->
  Forall code_point x.
Proof.
  intros H. apply Forall_forall. intros c Hc.
  rewrite forallb_forall in H. specialize (H c Hc). unfold code_point. lia.
Qed.

(** Where the source leaves the RFC: from 2^31 on, [delta >> 1] wraps.
    The delta below is the second one of the string of the counterexample
    that follows; the RFC adapts the bias to 192, the source to 36.  A
    wrapped delta can even bring the divisor [delta + skew] to zero. *)
Example punycodAdapt_wraps :
  toInt32 2230191964 = -2064775332
  /\ punycodAdapt 2230191964 2002 false = Num 36
  /\ RFC3492.adapt 2230191964 2002 false = 192
  /\ punycodAdapt (2 ^ 32 - 50) 2 false = NegInfinity.
Proof. repeat split. Qed.

(** C1, as it is stated: with an encoder whose integers have 32 bits
    (maxint = 2^32 - 1, the sample implementation of the RFC on unsigned
    32-bit integers) the decoder does not give back the string of 2000
    letters a followed by U+0080, U+10FFFF and U+10FFFE.  The second
    delta, 2230191964, exceeds 2^31; [delta >> 1] in [punycodAdapt] wraps
    it, and the third delta is read with a wrong bias. *)
Lemma decoder_inverts_encoder_counterexample :
  let x := repeat 97 2000 ++ [128; 1114111; 1114110] in
  Forall code_point x /\
  exists label,
    RFC3492.encode (2 ^ 32 - 1) x = Some label
    /\ punycodeDecode label <> Return (utf16 x).
Proof.
  intros x. split.
  - apply code_point_forallb. vm_compute. reflexivity.
  - destruct (RFC3492.encode (2 ^ 32 - 1) x) as [label|] eqn:E;
      [|vm_compute in E; discriminate].
    exists label. split; [reflexivity|].
    intros H.
    assert (Hne : match punycodeDecode label with
                  | Return r => jsstring_eqb r (utf16 x)
                  | _ => false
                  end = false).
    { vm_compute in E. injection E as <-. vm_compute. reflexivity. }
    rewrite H, jsstring_eqb_refl in Hne. discriminate.
Qed.

Lemma decoder_inverts_encoder_witness :
  2 ^ 31 - 1 <= 2 ^ 31 - 1
  /\ Forall code_point [26085; 26412]
  /\ Z.of_nat (length [26085; 26412]) < 2 ^ 32
  /\ RFC3492.encode (2 ^ 31 - 1) [26085; 26412] = Some (str "wgv71a")
  /\ punycodeDecode (str "wgv71a") = Return (utf16 [26085; 26412]).
Proof.
  assert (H1 : 2 ^ 31 - 1 <= 2 ^ 31 - 1) by lia.
  assert (H2 : Forall code_point [26085; 26412])
    by (apply code_point_forallb; reflexivity).
  assert (H3 : Z.of_nat (length [26085; 26412]) < 2 ^ 32) by (simpl; lia).
  assert (H4 : RFC3492.encode (2 ^ 31 - 1) [26085; 26412]
               = Some (str "wgv71a")) by (vm_compute; reflexivity).
  refine (conj H1 (conj H2 (conj H3 (conj H4 _)))).
  exact (decoder_inverts_encoder _ _ _ H1 H2 H3 H4).
Defined.

(* ================================================================== *)
(** ** How the decoder fails *)

Lemma punycodeDecode_portions input :
  punycodeDecode input
  = (output <- copy_basic (basicPortion input) ;;
     decode_loop (length (encodedPortion input)) (encodedPortion input)
       output 0 PUNYCODE.initialN (Num PUNYCODE.initialBias)).
Proof. reflexivity. Qed.

Lemma copy_basic_outcome basic :
  (Forall (fun c => c < 128) basic /\ exists output, copy_basic basic = Return output)
  \/ (Exists (fun c => 128 <= c) basic /\ copy_basic basic = Throw NonAsciiBasic).
Proof.
  induction basic as [|c basic IH]; [left; split; [constructor | eexists; reflexivity]|].
  cbn [copy_basic]. destruct (c >=? 128) eqn:E.
  - right. split; [left; lia | reflexivity].
  - destruct IH as [[Hall [output Hout]]|[Hex Hthrow]].
    + left. split; [constructor; [lia | exact Hall]|].
      rewrite Hout. eexists. reflexivity.
    + right. split; [right; exact Hex|]. rewrite Hthrow. reflexivity.
Qed.





Lemma threshold_range k (bias : number) : 1 <= threshold k bias <= 26.
Proof.
  destruct bias as [b|];
    [apply threshold_bounds | cbn [threshold]; unfold PUNYCODE.tMax; lia].
Qed.

Lemma decode_integer_grows rest :
  forall i w k bias i' rest',
    0 < w ->
    decode_integer rest i w k bias = Return (i', rest') -> i <= i'.
Proof.
  induction rest as [|c rest IH]; intros i w k bias i' rest' Hw H;
    cbn [decode_integer] in H; [discriminate|].
  destruct (punycodeDigitToBasic c) as [digit|] eqn:Ec; [|discriminate].
  assert (Hdigit : 0 <= digit).
  { unfold punycodeDigitToBasic in Ec.
    destruct ((48 <=? c) && (c <=? 57)) eqn:E1; [injection Ec as <-; lia|].
    destruct ((65 <=? c) && (c <=? 90)) eqn:E2; [injection Ec as <-; lia|].
    destruct ((97 <=? c) && (c <=? 122)) eqn:E3;
      [injection Ec as <-; lia | discriminate]. }
  assert (Hstep : 0 <= digit * w) by (apply Z.mul_nonneg_nonneg; lia).
  unfold safe in H. destruct (_ <=? _); cbn [bind] in H; [|discriminate].
  pose proof (threshold_range k bias) as Ht.
  destruct (digit <? threshold k bias).
  - injection H as <- _. lia.
  - apply IH in H; [lia|].
    apply Z.mul_pos_pos; [exact Hw | unfold PUNYCODE.base; lia].
Qed.











(** The readings of three labels: [bcher-kva] is read to its end and gives
    U+00FC; [99999a] is read to its end and gives a code point beyond
    U+10FFFF; the reading of [wgv71] gives U+65E5 and ends inside the
    second integer. *)
Example decoded_run_samples :
  (decodedCodePoints (str "bcher-kva") = [252]
   /\ suffixReading (str "bcher-kva") = Return tt)
  /\ (decodedCodePoints (str "99999a") = [4760513]
      /\ suffixReading (str "99999a") = Return tt)
  /\ (decodedCodePoints (str "wgv71") = [26085]
      /\ suffixReading (str "wgv71") = Throw UnexpectedEnd).
Proof. vm_compute. repeat split. Qed.

(* ================================================================== *)
(** ** Recognition of the prefix *)

Lemma startsWith_nil s : startsWith s [] = true.
Proof. destruct s; reflexivity. Qed.

Lemma startsWith_toLowerCase a s p ps :
  p <> 105 ->
  startsWith (toLowerCase (a :: s)) (p :: ps)
  = (firstLower a =? p) && startsWith (toLowerCase s) ps.
Proof.
  intros Hp. unfold toLowerCase, firstLower. cbn [flat_map].
  destruct ((65 <=? a) && (a <=? 90)); [reflexivity|].
  destruct (a =? 304).
  - cbn [app startsWith]. replace (105 =? p) with false by lia. reflexivity.
  - destruct (a =? 8490); reflexivity.
Qed.

Lemma firstLower_hyphen a : firstLower a = 45 <-> a = 45.
Proof.
  unfold firstLower.
  destruct ((65 <=? a) && (a <=? 90)) eqn:E1; [lia|].
  destruct (a =? 304) eqn:E2; [lia|].
  destruct (a =? 8490) eqn:E3; lia.
Qed.

Lemma firstLower_letter a p :
  97 <= p <= 122 -> p <> 105 -> p <> 107 ->
  firstLower a = p <-> a = p \/ a = p - 32.
Proof.
  intros Hrange H1 H2. unfold firstLower.
  destruct ((65 <=? a) && (a <=? 90)) eqn:E1; [lia|].
  destruct (a =? 304) eqn:E2; [lia|].
  destruct (a =? 8490) eqn:E3; lia.
Qed.

Lemma isPunycode_prefix s : isPunycode s = true <-> hasPrefixIgnoringCase s.
Proof.
  unfold isPunycode, hasPrefixIgnoringCase.
  change PUNYCODE.prefix with [120; 110; 45; 45].
  split.
  - intros H.
    destruct s as [|a [|b [|c [|d rest]]]];
      try (repeat (rewrite startsWith_toLowerCase in H by lia);
           cbn [toLowerCase flat_map startsWith] in H;
           rewrite ?andb_false_r in H; discriminate).
    repeat (rewrite startsWith_toLowerCase in H by lia).
    rewrite startsWith_nil, andb_true_r in H.
    apply andb_true_iff in H. destruct H as [Ha H].
    apply andb_true_iff in H. destruct H as [Hb H].
    apply andb_true_iff in H. destruct H as [Hc Hd].
    apply Z.eqb_eq in Ha. apply Z.eqb_eq in Hb.
    apply Z.eqb_eq in Hc. apply Z.eqb_eq in Hd.
    apply (proj1 (firstLower_letter a 120 ltac:(lia) ltac:(lia) ltac:(lia)))
      in Ha.
    apply (proj1 (firstLower_letter b 110 ltac:(lia) ltac:(lia) ltac:(lia)))
      in Hb.
    apply (proj1 (firstLower_hyphen c)) in Hc.
    apply (proj1 (firstLower_hyphen d)) in Hd.
    subst c d. exists a, b, rest. repeat split; lia.
  - intros (a & b & rest & -> & Ha & Hb).
    repeat (rewrite startsWith_toLowerCase by lia).
    rewrite startsWith_nil, andb_true_r.
    assert (Ea : firstLower a = 120) by (apply firstLower_letter; lia).
    assert (Eb : firstLower b = 110) by (apply firstLower_letter; lia).
    rewrite Ea, Eb. reflexivity.
Qed.

(** C3.  [decodePunycodeIfNeeded(str)] decodes exactly when [str] starts
    with [xn--] in any case, and then decodes [str] without its first four
    code units; when that decoding fails it returns [str] unchanged, and
    when [str] has no such prefix it returns [str] unchanged. *)
Theorem decodePunycodeIfNeeded_spec (s : jsstring) :
  (isPunycode s = true <-> hasPrefixIgnoringCase s)
  /\ (~ hasPrefixIgnoringCase s -> decodePunycodeIfNeeded s = Return s)
  /\ (hasPrefixIgnoringCase s ->
      (forall e, punycodeDecode (skipn 4 s) = Throw e ->
                 decodePunycodeIfNeeded s = Return s)
      /\ (forall r, punycodeDecode (skipn 4 s) = Return r ->
                    decodePunycodeIfNeeded s = Return r)).
Proof.
  pose proof (isPunycode_prefix s) as Hiff.
  split; [exact Hiff|]. unfold decodePunycodeIfNeeded.
  change (sliceFrom s (length PUNYCODE.prefix)) with (skipn 4 s).
  split.
  - intros Hno. destruct (isPunycode s); [|reflexivity].
    exfalso. apply Hno, Hiff. reflexivity.
  - intros Hyes. apply Hiff in Hyes. rewrite Hyes. cbn [negb].
    split; [intros e He | intros r Hr].
    + rewrite He. reflexivity.
    + rewrite Hr. reflexivity.
Qed.

(* ================================================================== *)
(** ** Code points and grapheme clusters of a prefix *)

Lemma codePoints_cons a s :
  exists unit units, codePoints (a :: s) = (a :: unit) :: units.
Proof.
  cbn [codePoints]. destruct s as [|b s]; [eexists; eexists; reflexivity|].
  destruct (isHighSurrogate a && isLowSurrogate b);
    eexists; eexists; reflexivity.
Qed.

Lemma codePoints_join_bounded n :
  forall s, (length s <= n)%nat -> join (codePoints s) = s.
Proof.
  unfold join.
  induction n as [|n IH]; intros s Hlen.
  - destruct s; [reflexivity | cbn [length] in Hlen; lia].
  - destruct s as [|a [|b s]]; [reflexivity | reflexivity |].
    cbn [codePoints length] in *.
    destruct (isHighSurrogate a && isLowSurrogate b); cbn [concat app].
    + rewrite IH by lia. reflexivity.
    + specialize (IH (b :: s)). cbn [codePoints length] in IH.
      rewrite IH by lia. reflexivity.
Qed.

Lemma codePoints_join s : join (codePoints s) = s.
Proof. apply (codePoints_join_bounded (length s)). lia. Qed.

(** The code points of the first [k] code points of [s] are these code
    points: joining them pairs no surrogates that were apart in [s]. *)
Lemma codePoints_pair a b s :
  codePoints (a :: b :: s)
  = if isHighSurrogate a && isLowSurrogate b
    then [a; b] :: codePoints s
    else [a] :: codePoints (b :: s).
Proof. reflexivity. Qed.

Lemma codePoints_prefix_bounded n :
  forall s k, (length s <= n)%nat ->
    codePoints (join (firstn k (codePoints s))) = firstn k (codePoints s).
Proof.
  unfold join.
  induction n as [|n IH]; intros s k Hlen.
  - destruct s; [destruct k; reflexivity | cbn [length] in Hlen; lia].
  - destruct s as [|a [|b s]]; [destruct k; reflexivity | |].
    + destruct k as [|[|k]]; reflexivity.
    + destruct k as [|k]; [reflexivity|].
      cbn [length] in Hlen. rewrite codePoints_pair.
      destruct (isHighSurrogate a && isLowSurrogate b) eqn:Epair.
      * cbn [firstn concat app]. rewrite codePoints_pair, Epair.
        rewrite IH by lia. reflexivity.
      * specialize (IH (b :: s) k ltac:(cbn [length]; lia)).
        cbn [firstn concat app].
        destruct (codePoints_cons b s) as (unit & units & Hcp).
        rewrite Hcp in *.
        destruct k as [|k]; [reflexivity|].
        cbn [firstn concat app] in *.
        rewrite codePoints_pair, Epair, IH. reflexivity.
Qed.

Lemma codePoints_prefix s k :
  codePoints (join (firstn k (codePoints s))) = firstn k (codePoints s).
Proof. apply (codePoints_prefix_bounded (length s)). lia. Qed.

Section Clusters.

Variable rt : Runtime.

Lemma clusters_join cps :
  forall before current,
    join (clusters rt before current cps) = current ++ join cps.
Proof.
  unfold join.
  induction cps as [|cp cps IH]; intros before current; cbn [clusters concat].
  - reflexivity.
  - destruct (graphemeBreak rt before cp); cbn [concat].
    + rewrite IH. reflexivity.
    + rewrite IH, <- app_assoc. reflexivity.
Qed.

(** The first [k] clusters are the clusters of the code points they hold:
    a boundary depends on nothing after the code point that follows it. *)
Lemma clusters_prefix cps :
  forall before current k, (1 <= k)%nat ->
    exists taken left,
      cps = taken ++ left
      /\ firstn k (clusters rt before current cps)
         = clusters rt before current taken.
Proof.
  induction cps as [|cp cps IH]; intros before current k Hk.
  - exists [], []. split; [reflexivity|].
    destruct k; [lia|]. cbn [clusters firstn]. destruct k; reflexivity.
  - cbn [clusters]. destruct (graphemeBreak rt before cp) eqn:Ebreak.
    + destruct k as [|[|k]]; [lia | |].
      * exists [], (cp :: cps). split; reflexivity.
      * destruct (IH (cp :: before) cp (S k) ltac:(lia))
          as (taken & left & -> & Hfirst).
        exists (cp :: taken), left. split; [reflexivity|].
        cbn [firstn clusters]. rewrite Ebreak. cbn [firstn] in Hfirst.
        rewrite <- Hfirst. reflexivity.
    + destruct (IH (cp :: before) (current ++ cp) k Hk)
        as (taken & left & -> & Hfirst).
      exists (cp :: taken), left. split; [reflexivity|].
      cbn [clusters]. rewrite Ebreak. exact Hfirst.
Qed.

Lemma segments_join s : join (segments rt s) = s.
Proof.
  unfold segments. pose proof (codePoints_join s) as H.
  destruct (codePoints s) as [|cp cps]; [exact H|].
  rewrite clusters_join. exact H.
Qed.

Lemma segments_prefix s k :
  segments rt (join (firstn k (segments rt s))) = firstn k (segments rt s).
Proof.
  destruct k as [|k]; [reflexivity|].
  unfold segments at 2 3.
  destruct (codePoints s) as [|cp cps] eqn:Ecp; [reflexivity|].
  destruct (clusters_prefix cps [cp] cp (S k) ltac:(lia))
    as (taken & left & Hcps & Hfirst).
  rewrite Hfirst, clusters_join.
  assert (Htaken : codePoints (cp ++ join taken) = cp :: taken).
  { pose proof (codePoints_prefix s (S (length taken))) as H.
    rewrite Ecp, Hcps in H. cbn [firstn] in H.
    rewrite firstn_app, firstn_all, Nat.sub_diag in H.
    cbn [firstn] in H. rewrite app_nil_r in H. exact H. }
  unfold segments. rewrite Htaken. reflexivity.
Qed.

Lemma graphemes_join s : join (graphemes rt s) = s.
Proof.
  unfold graphemes. destruct (hasSegmenter rt);
    [apply segments_join | apply codePoints_join].
Qed.

Lemma slice0_firstn {A} (array : list A) count :
  0 <= count -> slice0 array count = firstn (Z.to_nat count) array.
Proof.
  intros Hc. unfold slice0. replace (count <? 0) with false by lia.
  destruct (Z.le_ge_cases count (Z.of_nat (length array))) as [Hle|Hge].
  - rewrite Z.min_l by exact Hle. reflexivity.
  - rewrite Z.min_r by lia. rewrite Nat2Z.id, firstn_all.
    symmetry. apply firstn_all2. lia.
Qed.

Lemma getFirstGraphemes_firstn s count :
  0 <= count ->
  getFirstGraphemes rt s count
  = join (firstn (Z.to_nat count) (graphemes rt s)).
Proof.
  intros Hc. unfold getFirstGraphemes, graphemes.
  destruct (hasSegmenter rt); rewrite slice0_firstn by exact Hc; reflexivity.
Qed.

(** The units of the truncated string are the first units of the string. *)
Lemma graphemes_getFirstGraphemes s count :
  0 <= count ->
  graphemes rt (getFirstGraphemes rt s count)
  = firstn (Z.to_nat count) (graphemes rt s).
Proof.
  intros Hc. rewrite getFirstGraphemes_firstn by exact Hc.
  unfold graphemes. destruct (hasSegmenter rt);
    [apply segments_prefix | apply codePoints_prefix].
Qed.

Lemma countGraphemes_length s :
  countGraphemes rt s = Z.of_nat (length (graphemes rt s)).
Proof.
  unfold countGraphemes, graphemes. destruct (hasSegmenter rt); reflexivity.
Qed.

(** C4.  For every string [s] and every non-negative integer [n], the
    string that [getFirstGraphemes(s, n)] returns holds at most [n]
    grapheme units as [countGraphemes] counts them, and no unit of [s] is
    split: the units of the result, followed by the units left over, are
    the units of [s]. *)
Theorem getFirstGraphemes_bounded (s : jsstring) (n : Z) :
  0 <= n ->
  countGraphemes rt (getFirstGraphemes rt s n) <= n
  /\ exists left,
       graphemes rt s = graphemes rt (getFirstGraphemes rt s n) ++ left.
Proof.
  intros Hn. rewrite countGraphemes_length.
  rewrite graphemes_getFirstGraphemes by exact Hn. split.
  - rewrite length_firstn. lia.
  - exists (skipn (Z.to_nat n) (graphemes rt s)).
    symmetry. apply firstn_skipn.
Qed.

(** C10.  For every string [s] and every non-negative integer [n],
    [getFirstGraphemes(s, n)] is a prefix of [s], and it is [s] itself
    whenever [n >= countGraphemes(s)]. *)
Theorem getFirstGraphemes_prefix (s : jsstring) (n : Z) :
  0 <= n ->
  (exists left, s = getFirstGraphemes rt s n ++ left)
  /\ (countGraphemes rt s <= n -> getFirstGraphemes rt s n = s).
Proof.
  intros Hn. rewrite getFirstGraphemes_firstn by exact Hn. split.
  - exists (join (skipn (Z.to_nat n) (graphemes rt s))).
    unfold join. rewrite <- concat_app, firstn_skipn.
    symmetry. apply graphemes_join.
  - rewrite countGraphemes_length. intros Hcount.
    rewrite firstn_all2 by lia. apply graphemes_join.
Qed.

End Clusters.

Lemma getFirstGraphemes_bounded_witness :
  0 <= 2
  /\ countGraphemes combiningRuntime
       (getFirstGraphemes combiningRuntime
          [101; 769; 97; 55357; 56832; 776; 98] 2) <= 2
  /\ exists left,
       graphemes combiningRuntime [101; 769; 97; 55357; 56832; 776; 98]
       = graphemes combiningRuntime
           (getFirstGraphemes combiningRuntime
              [101; 769; 97; 55357; 56832; 776; 98] 2) ++ left.
Proof.
  assert (H : 0 <= 2) by lia.
  exact (conj H (getFirstGraphemes_bounded combiningRuntime
                   [101; 769; 97; 55357; 56832; 776; 98] 2 H)).
Defined.

Lemma getFirstGraphemes_prefix_witness :
  0 <= 2
  /\ (exists left,
        [55357; 56832; 74; 68]
        = getFirstGraphemes fallbackRuntime [55357; 56832; 74; 68] 2 ++ left)
  /\ (countGraphemes fallbackRuntime [55357; 56832; 74; 68] <= 2 ->
      getFirstGraphemes fallbackRuntime [55357; 56832; 74; 68] 2
      = [55357; 56832; 74; 68]).
Proof.
  assert (H : 0 <= 2) by lia.
  exact (conj H (getFirstGraphemes_prefix fallbackRuntime
                   [55357; 56832; 74; 68] 2 H)).
Defined.

(* ================================================================== *)
(** ** The size parameter *)

Lemma decimalDigits_all s :
  forallb isDecimalDigit s = true -> decimalDigits s = s.
Proof.
  induction s as [|c s IH]; intros H; [reflexivity|].
  cbn [forallb] in H. apply andb_true_iff in H. destruct H as [Hc Hs].
  cbn [decimalDigits]. rewrite Hc, (IH Hs). reflexivity.
Qed.

Lemma digitsValue_app high low value :
  digitsValue (high ++ low) value = digitsValue low (digitsValue high value).
Proof. apply fold_left_app. Qed.

(** The numeral that [decimalOf] writes before [low]. *)
Lemma decimalOf_spec fuel :
  forall n low, 0 <= n < 10 * 2 ^ Z.of_nat fuel ->
    exists c digits,
      decimalOf fuel n low = (c :: digits) ++ low
      /\ forallb isDecimalDigit (c :: digits) = true
      /\ digitsValue (c :: digits) 0 = n.
Proof.
  induction fuel as [|f IH]; intros n low Hn.
  - change (2 ^ Z.of_nat 0) with 1 in Hn.
    exists (48 + n mod 10), []. cbn [decimalOf]. rewrite Z.mod_small by lia.
    split; [reflexivity|]. split.
    + unfold isDecimalDigit. cbn [forallb]. lia.
    + unfold digitsValue. cbn [fold_left]. lia.
  - cbn [decimalOf]. destruct (n <? 10) eqn:E.
    + exists (48 + n mod 10), []. rewrite Z.mod_small by lia.
      split; [reflexivity|]. split.
      * unfold isDecimalDigit. cbn [forallb]. lia.
      * unfold digitsValue. cbn [fold_left]. lia.
    + rewrite pow2_succ_nat in Hn.
      assert (Hq : 0 <= n / 10 < 10 * 2 ^ Z.of_nat f).
      { split; [apply Z.div_pos; lia|].
        apply Z.div_lt_upper_bound; lia. }
      destruct (IH (n / 10) ((48 + n mod 10) :: low) Hq)
        as (c & digits & Heq & Hall & Hval).
      pose proof (Z.mod_pos_bound n 10 ltac:(lia)) as Hm.
      exists c, (digits ++ [48 + n mod 10]). split; [|split].
      * rewrite Heq. cbn [app]. rewrite <- app_assoc. reflexivity.
      * change (c :: digits ++ [48 + n mod 10])
          with ((c :: digits) ++ [48 + n mod 10]).
        rewrite forallb_app, Hall. unfold isDecimalDigit. cbn [forallb]. lia.
      * change (c :: digits ++ [48 + n mod 10])
          with ((c :: digits) ++ [48 + n mod 10]).
        rewrite digitsValue_app, Hval. unfold digitsValue. cbn [fold_left].
        pose proof (Z.div_mod n 10 ltac:(lia)). lia.
Qed.

Lemma decimal_fuel n : 0 <= n -> n < 10 * 2 ^ Z.of_nat (Z.to_nat (Z.log2 n)).
Proof.
  intros Hn. rewrite Z2Nat.id by apply Z.log2_nonneg.
  destruct (Z.eq_dec n 0) as [->|Hne]; [reflexivity|].
  pose proof (Z.log2_spec n ltac:(lia)) as H.
  rewrite Z.pow_succ_r in H by apply Z.log2_nonneg. lia.
Qed.

Lemma isDecimalDigit_not_white c :
  isDecimalDigit c = true -> isWhiteSpace c = false.
Proof.
  unfold isDecimalDigit, isWhiteSpace. intros H. cbn [existsb]. lia.
Qed.

(** [parseInt] on a string that starts with a decimal digit. *)
Lemma parseInt_digits c digits :
  forallb isDecimalDigit (c :: digits) = true ->
  parseInt (Some (c :: digits)) = Some (digitsValue (c :: digits) 0).
Proof.
  intros Hall. pose proof Hall as Hc. cbn [forallb] in Hc.
  apply andb_true_iff in Hc. destruct Hc as [Hc _].
  unfold parseInt. cbn [trimStart].
  rewrite (isDecimalDigit_not_white c Hc).
  unfold isDecimalDigit in Hc.
  assert (Hten : c = 48 \/ c = 49 \/ c = 50 \/ c = 51 \/ c = 52 \/ c = 53
                 \/ c = 54 \/ c = 55 \/ c = 56 \/ c = 57) by lia.
  repeat destruct Hten as [Hten|Hten]; subst c;
    cbv iota beta; rewrite decimalDigits_all by exact Hall;
    unfold digitsValue; f_equal; lia.
Qed.

(** [parseInt] reads a decimal numeral back. *)
Lemma parseInt_decimal z : parseInt (Some (decimal z)) = Some z.
Proof.
  unfold decimal. destruct (z <? 0) eqn:E.
  - destruct (decimalOf_spec _ (- z) [] ltac:(split; [lia | apply decimal_fuel; lia]))
      as (c & digits & -> & Hall & Hval).
    rewrite app_nil_r. unfold parseInt. cbn [trimStart].
    change (isWhiteSpace 45) with false. cbv iota beta.
    rewrite decimalDigits_all by exact Hall.
    fold (digitsValue (c :: digits) 0). rewrite Hval. f_equal. lia.
  - destruct (decimalOf_spec _ z [] ltac:(split; [lia | apply decimal_fuel; lia]))
      as (c & digits & -> & Hall & Hval).
    rewrite app_nil_r, parseInt_digits by exact Hall.
    rewrite Hval. reflexivity.
Qed.

Lemma parseAvatarOptions_size_eq rt url options :
  parseAvatarOptions rt url = Return options ->
  size options
  = Z.max 1 (Z.min (match parseInt (searchParams_get url (str "s")) with
                    | Some 0 | None => DEFAULTS.size
                    | Some size => size
                    end) 1000).
Proof.
  unfold parseAvatarOptions. intros H.
  destruct (if startsWith (pathname url) BASEPATH then _ else _)
    as [avatarText|e| |]; cbn [bind] in H; try discriminate.
  injection H as <-. reflexivity.
Qed.

(** C5, as it is stated: zero is an integer value below the range, and the
    size it gives is the default 60, not 1: [parseInt(...) || 60] takes
    the default for the falsy 0 as it does for [NaN]. *)
Lemma parseAvatarOptions_size_counterexample :
  let url := {| pathname := str "/avatar/JD";
                searchParams := [(str "s", decimal 0)] |} in
  parseInt (searchParams_get url (str "s")) = Some 0
  /\ exists options,
       parseAvatarOptions fallbackRuntime url = Return options
       /\ size options = 60
       /\ size options <> Z.max 1 (Z.min 0 1000).
Proof.
  cbv zeta. split; [reflexivity|].
  eexists. split; [vm_compute; reflexivity|].
  split; [reflexivity | discriminate].
Qed.

(** C5 (amended).  For every request URL, the size in the parsed avatar
    options lies in [1, 1000]; it is the default 60 when [s] is absent,
    when it is non-numeric and when its integer value is 0; and for every
    other integer value of [s] it is that value clamped into [1, 1000]. *)
Theorem parseAvatarOptions_size rt url options :
  parseAvatarOptions rt url = Return options ->
  1 <= size options <= 1000
  /\ (searchParams_get url (str "s") = None -> size options = 60)
  /\ (forall s, searchParams_get url (str "s") = Some s ->
                parseInt (Some s) = None -> size options = 60)
  /\ (forall z, searchParams_get url (str "s") = Some (decimal z) ->
                size options
                = if z =? 0 then 60 else Z.max 1 (Z.min z 1000)).
Proof.
  intros H. apply parseAvatarOptions_size_eq in H. rewrite H. clear H.
  repeat split; try lia.
  - intros ->. reflexivity.
  - intros s -> ->. reflexivity.
  - intros z ->. rewrite parseInt_decimal.
    destruct z; reflexivity.
Qed.

Lemma parseAvatarOptions_size_witness :
  let url := {| pathname := str "/avatar/JD";
                searchParams := [(str "s", decimal 9999)] |} in
  let options := {| size := 1000; text := str "JD"; shape := None;
                    isRootPath := false |} in
  parseAvatarOptions fallbackRuntime url = Return options
  /\ searchParams_get url (str "s") = Some (decimal 9999)
  /\ size options = 1000.
Proof.
  cbv zeta.
  assert (H : parseAvatarOptions fallbackRuntime
                {| pathname := str "/avatar/JD";
                   searchParams := [(str "s", decimal 9999)] |}
              = Return {| size := 1000; text := str "JD"; shape := None;
                          isRootPath := false |})
    by (vm_compute; reflexivity).
  refine (conj H (conj eq_refl _)).
  exact (proj2 (proj2 (proj2 (parseAvatarOptions_size _ _ _ H))) 9999 eq_refl).
Defined.

(** The examples of C5: [s=-5] gives 1 and [s=9999] gives 1000. *)
Example parseAvatarOptions_size_examples :
  forall rt path shape options,
    (parseAvatarOptions rt
       {| pathname := path; searchParams := (str "s", str "-5") :: shape |}
     = Return options -> size options = 1)
    /\ (parseAvatarOptions rt
          {| pathname := path; searchParams := (str "s", str "9999") :: shape |}
        = Return options -> size options = 1000).
Proof.
  intros rt path shape options.
  split; intros H; apply parseAvatarOptions_size_eq in H; exact H.
Qed.

(* ================================================================== *)
(** ** The shape parameter *)

Lemma getShapeStyle_recognized :
  getShapeStyle (Some (str "circle"))
  = VString (str "style=" ++ quote ++ str "border-radius: 50%;" ++ quote)
  /\ getShapeStyle (Some (str "rounded"))
     = VString (str "style=" ++ quote ++ str "border-radius: 10px;" ++ quote)
  /\ getShapeStyle None = VString [].
Proof. repeat split. Qed.

(** Apart from the names that an object inherits, every other value of
    the parameter gives the empty string. *)
Lemma getShapeStyle_other shape :
  jsstring_eqb (str "circle") shape = false ->
  jsstring_eqb (str "rounded") shape = false ->
  lookup ObjectPrototype shape = None ->
  getShapeStyle (Some shape) = VString [].
Proof.
  intros H1 H2 H3. unfold getShapeStyle, getProperty.
  cbn [lookup]. rewrite H1, H2, H3. reflexivity.
Qed.

(** C6, at the failing input: for [shape=constructor] the lookup
    [styles[shape]] finds the property that the object literal inherits
    from [Object.prototype], and [getShapeStyle] returns that function
    instead of the empty string; the template prints its source text into
    the [svg] tag. *)
Theorem getShapeStyle_inherited_property :
  getShapeStyle (Some (str "constructor")) = VFunction (str "Object")
  /\ getShapeStyle (Some (str "constructor")) <> VString []
  /\ toString (getShapeStyle (Some (str "constructor")))
     = str "function Object() { [native code] }".
Proof. repeat split. discriminate. Qed.

(* ================================================================== *)
(** ** Requests that fail *)

(** C7, at the failing input: the path [/avatar/%] holds a percent sign
    that starts no escape sequence; [decodeURIComponent] throws a URIError
    on it, nothing catches it, and [handleRequest] fails instead of
    returning an SVG response.  The same happens on [/avatar/%FF], an
    escape sequence that is no UTF-8. *)
Theorem handleRequest_malformed_escape (rt : Runtime) (random : nat -> Z)
    (query : list (jsstring * jsstring)) :
  handleRequest rt random
    {| pathname := str "/avatar/%"; searchParams := query |} = Throw URIError
  /\ handleRequest rt random
       {| pathname := str "/avatar/%FF"; searchParams := query |}
     = Throw URIError.
Proof. split; reflexivity. Qed.

(* ================================================================== *)
(** ** Escaping of the text *)

Lemma escapeXml_cons c text :
  escapeXml (c :: text)
  = (if xmlSpecial c then xmlEntities c else [c]) ++ escapeXml text.
Proof. reflexivity. Qed.

(** A special character is replaced by its entity, an ampersand followed
    by one of the five tails. *)
Lemma xmlEntities_tail c :
  xmlSpecial c = true ->
  exists tail, xmlEntities c = 38 :: tail /\ In tail entityTails
               /\ ~ In 38 tail
               /\ forall a, In a tail -> a <> 60 /\ a <> 62 /\ a <> 34 /\ a <> 39.
Proof.
  intros H. unfold xmlSpecial in H. unfold xmlEntities, entityTails.
  destruct (c =? 38); [|destruct (c =? 60); [|destruct (c =? 62);
    [|destruct (c =? 34)]]];
    eexists; (split; [reflexivity|]); (split; [cbn [In]; tauto|]);
    (split; [cbn [In str map String.list_ascii_of_string]; intros Hin;
             repeat destruct Hin as [Hin|Hin]; try discriminate; exact Hin
            | intros a Hin; cbn in Hin;
              repeat destruct Hin as [<-|Hin]; try contradiction;
              repeat split; discriminate]).
Qed.

Lemma xmlSpecial_false c :
  xmlSpecial c = false ->
  c <> 38 /\ c <> 60 /\ c <> 62 /\ c <> 34 /\ c <> 39.
Proof. unfold xmlSpecial. lia. Qed.

Lemma escapeXml_no_markup text :
  forall c, In c (escapeXml text) -> c <> 60 /\ c <> 62 /\ c <> 34 /\ c <> 39.
Proof.
  induction text as [|a text IH]; intros c Hc; [destruct Hc|].
  rewrite escapeXml_cons in Hc. apply in_app_or in Hc.
  destruct Hc as [Hc|Hc]; [|exact (IH c Hc)].
  destruct (xmlSpecial a) eqn:E.
  - destruct (xmlEntities_tail a E) as (tail & Heq & _ & _ & Htail).
    rewrite Heq in Hc. destruct Hc as [<-|Hc]; [repeat split; discriminate|].
    exact (Htail c Hc).
  - destruct Hc as [<-|[]]. apply xmlSpecial_false in E. tauto.
Qed.

(** A run without ampersand at the head of a string lies before the first
    ampersand of the string. *)
Lemma ampersand_after tail :
  forall rest before after,
    ~ In 38 tail -> tail ++ rest = before ++ 38 :: after ->
    exists before', before = tail ++ before' /\ rest = before' ++ 38 :: after.
Proof.
  induction tail as [|a tail IH]; intros rest before after Hno Heq.
  - exists before. split; [reflexivity | exact Heq].
  - destruct before as [|b before]; cbn [app] in Heq.
    + injection Heq as -> _. exfalso. apply Hno. left. reflexivity.
    + injection Heq as -> Heq.
      destruct (IH rest before after) as (before' & -> & Hrest);
        [intros Hin; apply Hno; right; exact Hin | exact Heq |].
      exists before'. split; [reflexivity | exact Hrest].
Qed.

Lemma startsWith_app tail rest : startsWith (tail ++ rest) tail = true.
Proof.
  induction tail as [|a tail IH]; [apply startsWith_nil|].
  cbn [app startsWith]. rewrite Z.eqb_refl, IH. reflexivity.
Qed.

(** Every ampersand of the escaped text starts an entity. *)
Lemma escapeXml_ampersand text :
  forall before after,
    escapeXml text = before ++ 38 :: after ->
    exists tail, In tail entityTails /\ startsWith after tail = true.
Proof.
  induction text as [|a text IH]; intros before after Heq.
  - destruct before; discriminate.
  - rewrite escapeXml_cons in Heq. destruct (xmlSpecial a) eqn:E.
    + destruct (xmlEntities_tail a E) as (tail & Hent & Hin & Hno & _).
      rewrite Hent in Heq. cbn [app] in Heq.
      destruct before as [|b before]; cbn [app] in Heq.
      * injection Heq as <-. exists tail. split; [exact Hin|].
        apply startsWith_app.
      * injection Heq as _ Heq.
        destruct (ampersand_after tail _ before after Hno Heq)
          as (before' & _ & Hrest).
        exact (IH before' after Hrest).
    + apply xmlSpecial_false in E. cbn [app] in Heq.
      destruct before as [|b before]; cbn [app] in Heq.
      * injection Heq as -> _. tauto.
      * injection Heq as _ Heq. exact (IH before after Heq).
Qed.

Lemma tail_after {A} (piece rest tail : list A) :
  (exists head, rest = head ++ tail) ->
  exists head, piece ++ rest = head ++ tail.
Proof. intros [head ->]. exists (piece ++ head). apply app_assoc. Qed.

Lemma tail_here {A} (tail : list A) : exists head, tail = head ++ tail.
Proof. exists []. reflexivity. Qed.

Lemma generateSvgAvatar_tail rt size text shapeStyle color1 color2 :
  exists head,
    generateSvgAvatar rt size text shapeStyle color1 color2
    = head
      ++ fontSizeAttribute
           (numberToString rt (calculateFontSize rt size text))
      ++ textNode (escapeXml text).
Proof.
  unfold generateSvgAvatar. cbv zeta.
  repeat first [apply tail_here | apply tail_after].
Qed.

(** C8.  For every avatar text the text node of the rendered SVG holds the
    escaped text, in which each of the five characters is replaced by its
    entity: it holds no less-than, greater-than, double quote or single
    quote, and each of its ampersands starts one of the five entities. *)
Theorem escapeXml_text_node rt size text shapeStyle color1 color2 :
  (exists head,
     generateSvgAvatar rt size text shapeStyle color1 color2
     = head ++ textNode (escapeXml text))
  /\ escapeXml text
     = flat_map (fun c => if xmlSpecial c then xmlEntities c else [c]) text
  /\ (xmlEntities 38 = str "&amp;" /\ xmlEntities 60 = str "&lt;"
      /\ xmlEntities 62 = str "&gt;" /\ xmlEntities 34 = str "&quot;"
      /\ xmlEntities 39 = str "&apos;")
  /\ (forall c, In c (escapeXml text) ->
                c <> 60 /\ c <> 62 /\ c <> 34 /\ c <> 39)
  /\ (forall before after,
        escapeXml text = before ++ 38 :: after ->
        exists tail, In tail entityTails /\ startsWith after tail = true).
Proof.
  split; [|split; [reflexivity|split; [repeat split|split]]].
  - destruct (generateSvgAvatar_tail rt size text shapeStyle color1 color2)
      as [head H].
    exists (head ++ fontSizeAttribute
                      (numberToString rt (calculateFontSize rt size text))).
    rewrite H, <- app_assoc. reflexivity.
  - apply escapeXml_no_markup.
  - apply escapeXml_ampersand.
Qed.

(* ================================================================== *)
(** ** The font size *)

(** C9.  For every avatar the font size that the rendered SVG carries is
    the number [size * 0.9 / max(graphemeCount(text), 1)]; for the size 80
    and a text of two graphemes it is 36. *)
Theorem calculateFontSize_embedded rt size text shapeStyle color1 color2 :
  let fontSize :=
    PrimFloat.div (PrimFloat.mul (numberOf size) 0x1.ccccccccccccdp-1%float)
                  (numberOf (Z.max (countGraphemes rt text) 1)) in
  (exists head,
     generateSvgAvatar rt size text shapeStyle color1 color2
     = head ++ fontSizeAttribute (numberToString rt fontSize)
       ++ textNode (escapeXml text))
  /\ (size = 80 -> countGraphemes rt text = 2 -> fontSize = 36%float).
Proof.
  cbv zeta. split.
  - exact (generateSvgAvatar_tail rt size text shapeStyle color1 color2).
  - intros -> ->. reflexivity.
Qed.

Lemma calculateFontSize_embedded_witness :
  let text := getFirstGraphemes fallbackRuntime [972; 946; 955; 959; 963] 2 in
  punycodeDecode (str "nxasmq5b") = Return [972; 946; 955; 959; 963]
  /\ countGraphemes fallbackRuntime text = 2
  /\ calculateFontSize fallbackRuntime 80 text = 36%float.
Proof.
  cbv zeta. refine (conj eq_refl (conj eq_refl _)).
  exact (proj2 (calculateFontSize_embedded fallbackRuntime 80
                  (getFirstGraphemes fallbackRuntime
                     [972; 946; 955; 959; 963] 2)
                  (VString []) [] []) eq_refl eq_refl).
Defined.

(* ================================================================== *)
(** ** The loop of [decodeURIComponent] terminates *)

Lemma escapedOctet_shorter s B s' :
  escapedOctet s = Some (B, s') -> (length s' < length s)%nat.
Proof.
  unfold escapedOctet, hexOctet. intros H.
  destruct s as [|c [|h1 [|h2 rest]]]; try discriminate;
    destruct (c =? 37); try discriminate.
  destruct (hexDigit h1), (hexDigit h2); try discriminate.
  injection H as _ <-. cbn [length]. lia.
Qed.

Lemma continuationOctets_shorter count :
  forall value s V s',
    continuationOctets count value s = Some (V, s') ->
    (length s' <= length s)%nat.
Proof.
  induction count as [|count IH]; intros value s V s' H;
    cbn [continuationOctets] in H.
  - injection H as _ <-. lia.
  - destruct (escapedOctet s) as [[octet rest]|] eqn:E; [|discriminate].
    apply escapedOctet_shorter in E.
    destruct (_ && _); [|discriminate].
    apply IH in H. lia.
Qed.

Lemma utf8CodePoint_shorter B s V s' :
  utf8CodePoint B s = Some (V, s') -> (length s' <= length s)%nat.
Proof.
  unfold utf8CodePoint. intros H.
  repeat match type of H with
         | (if ?b then _ else _) = _ => destruct b
         | match continuationOctets ?c ?v ?t with _ => _ end = _ =>
             let E := fresh "E" in
             destruct (continuationOctets c v t) as [[? ?]|] eqn:E;
             [apply continuationOctets_shorter in E|]
         end; try discriminate;
    injection H as _ <-; assumption.
Qed.

Lemma decodeURI_loop_total fuel :
  forall s, (length s <= fuel)%nat -> decodeURI_loop fuel s <> OutOfFuel.
Proof.
  induction fuel as [|f IH]; intros s Hlen.
  - destruct s; [discriminate | cbn [length] in Hlen; lia].
  - destruct s as [|C s]; [discriminate|].
    cbn [decodeURI_loop]. cbn [length] in Hlen.
    destruct (C =? 37).
    + destruct (escapedOctet (C :: s)) as [[B rest]|] eqn:E; [|discriminate].
      apply escapedOctet_shorter in E. cbn [length] in E.
      destruct (B <? 128).
      * specialize (IH rest ltac:(lia)).
        destruct (decodeURI_loop f rest); cbn [bind]; try discriminate.
        contradiction.
      * destruct (utf8CodePoint B rest) as [[V rest']|] eqn:E';
          [|discriminate].
        apply utf8CodePoint_shorter in E'.
        specialize (IH rest' ltac:(lia)).
        destruct (decodeURI_loop f rest'); cbn [bind]; try discriminate.
        contradiction.
    + specialize (IH s ltac:(lia)).
      destruct (decodeURI_loop f s); cbn [bind]; try discriminate.
      contradiction.
Qed.

Lemma decodeURIComponent_total s : decodeURIComponent s <> OutOfFuel.
Proof. apply decodeURI_loop_total. lia. Qed.

(* ================================================================== *)
(** ** The statements at concrete inputs *)


Lemma decodePunycodeIfNeeded_spec_witness :
  hasPrefixIgnoringCase (str "XN--wgv71a")
  /\ punycodeDecode (skipn 4 (str "XN--wgv71a")) = Return [26085; 26412]
  /\ decodePunycodeIfNeeded (str "XN--wgv71a") = Return [26085; 26412].
Proof.
  assert (H : hasPrefixIgnoringCase (str "XN--wgv71a")).
  { exists 88, 78, (str "wgv71a").
    split; [reflexivity | split; right; reflexivity]. }
  assert (Hd : punycodeDecode (skipn 4 (str "XN--wgv71a"))
               = Return [26085; 26412]) by reflexivity.
  refine (conj H (conj Hd _)).
  exact (proj2 (proj2 (proj2 (decodePunycodeIfNeeded_spec (str "XN--wgv71a")))
                  H) [26085; 26412] Hd).
Defined.

Lemma escapeXml_text_node_witness :
  escapeXml (str "<&>") = str "&lt;" ++ 38 :: str "amp;&gt;"
  /\ exists tail, In tail entityTails /\ startsWith (str "amp;&gt;") tail = true.
Proof.
  assert (H : escapeXml (str "<&>") = str "&lt;" ++ 38 :: str "amp;&gt;")
    by reflexivity.
  refine (conj H _).
  exact (proj2 (proj2 (proj2 (proj2
           (escapeXml_text_node fallbackRuntime 60 (str "<&>") (VString [])
              [] [])))) (str "&lt;") (str "amp;&gt;") H).
Defined.

(* ================================================================== *)
(** ** What a request can end in *)

Lemma decodeURI_loop_outcome fuel :
  forall s,
    match decodeURI_loop fuel s with
    | Return _ | Throw URIError | OutOfFuel => True
    | _ => False
    end.
Proof.
  induction fuel as [|f IH]; intros s.
  - destruct s; exact I.
  - destruct s as [|C s]; [exact I|]. cbn [decodeURI_loop].
    destruct (C =? 37).
    + destruct (escapedOctet (C :: s)) as [[B rest]|]; [|exact I].
      destruct (B <? 128).
      * specialize (IH rest). destruct (decodeURI_loop f rest) as [?|[]| |];
          cbn [bind]; try contradiction; exact I.
      * destruct (utf8CodePoint B rest) as [[V rest']|]; [|exact I].
        specialize (IH rest').
        destruct (decodeURI_loop f rest') as [?|[]| |];
          cbn [bind]; try contradiction; exact I.
    + specialize (IH s). destruct (decodeURI_loop f s) as [?|[]| |];
        cbn [bind]; try contradiction; exact I.
Qed.

Lemma punycodeDecode_total input : punycodeDecode input <> OutOfFuel.
Proof.
  rewrite punycodeDecode_portions.
  destruct (copy_basic_outcome (basicPortion input))
    as [[_ [output ->]]|[_ ->]]; cbn [bind]; [|discriminate].
  apply decode_loop_total. lia.
Qed.

Lemma decodePunycodeIfNeeded_outcome s :
  (exists r, decodePunycodeIfNeeded s = Return r)
  \/ decodePunycodeIfNeeded s = Inexact.
Proof.
  unfold decodePunycodeIfNeeded.
  destruct (negb (isPunycode s)); [left; eexists; reflexivity|].
  pose proof (punycodeDecode_total (sliceFrom s (length PUNYCODE.prefix))) as H.
  destruct (punycodeDecode _) as [r|e| |];
    [left; eexists; reflexivity | left; eexists; reflexivity
     | right; reflexivity | contradiction].
Qed.

(** Apart from the model's [Inexact], a request ends in a response or in
    the URIError of [decodeURIComponent]: that call is the one place where
    an invalid input is not turned into a default. *)
Lemma handleRequest_outcome rt random url :
  (exists response, handleRequest rt random url = Return response)
  \/ handleRequest rt random url = Throw URIError
  \/ handleRequest rt random url = Inexact.
Proof.
  unfold handleRequest, parseAvatarOptions.
  destruct (startsWith (pathname url) BASEPATH).
  - pose proof (decodeURIComponent_total
                  (sliceFrom (pathname url) (length BASEPATH))) as Htotal.
    pose proof (decodeURI_loop_outcome
                  (length (sliceFrom (pathname url) (length BASEPATH)))
                  (sliceFrom (pathname url) (length BASEPATH))) as Hout.
    fold (decodeURIComponent (sliceFrom (pathname url) (length BASEPATH)))
      in Hout.
    destruct (decodeURIComponent _) as [decodedText|[]| |]; cbn [bind];
      try contradiction.
    + destruct (decodePunycodeIfNeeded_outcome decodedText) as [[r ->]| ->];
        cbn [bind].
      * left. destruct (getGradientColors random 0) as [[color1 color2] next].
        eexists. reflexivity.
      * right. right. reflexivity.
    + right. left. reflexivity.
  - cbn [bind]. left.
    destruct (getGradientColors random 0) as [[color1 color2] next].
    eexists. reflexivity.
Qed.

(* ================================================================== *)
(** * Further properties of the worker *)

(* ================================================================== *)
(** ** Colors *)

Lemma randomDigits_hex random count :
  forall next,
    length (randomDigits random next count) = count
    /\ Forall (fun c => In c hex) (randomDigits random next count).
Proof.
  induction count as [|count IH]; intros next; cbn [randomDigits].
  - split; [reflexivity | constructor].
  - destruct (IH (S next)) as [Hlen Hall]. split.
    + cbn [length]. rewrite Hlen. reflexivity.
    + constructor; [|exact Hall].
      apply nth_In. change (length hex) with 16%nat.
      pose proof (Z.mod_pos_bound (random next) 16 ltac:(lia)). lia.
Qed.

(** X1.  Whatever the random numbers are, the two colors of a gradient
    are a number sign followed by six hexadecimal digits each, and making
    them takes twelve draws: the second color uses the six draws after
    those of the first. *)
Theorem getGradientColors_hex (random : nat -> Z) (next : nat) :
  hexColor (fst (fst (getGradientColors random next)))
  /\ hexColor (snd (fst (getGradientColors random next)))
  /\ snd (getGradientColors random next) = (next + 12)%nat
  /\ snd (fst (getGradientColors random next))
     = fst (getRandomColor random (next + 6)).
Proof.
  unfold getGradientColors, getRandomColor. cbn [fst snd].
  destruct (randomDigits_hex random 6 next) as [Hl1 Ha1].
  destruct (randomDigits_hex random 6 (next + 6)) as [Hl2 Ha2].
  repeat split.
  - exists (randomDigits random next 6). repeat split; assumption.
  - exists (randomDigits random (next + 6) 6). repeat split; assumption.
  - lia.
Qed.

(* ================================================================== *)
(** ** Counting graphemes *)

Lemma codePoints_nonempty_bounded n :
  forall s, (length s <= n)%nat -> Forall (fun u => u <> []) (codePoints s).
Proof.
  induction n as [|n IH]; intros s Hlen.
  - destruct s; [constructor | cbn [length] in Hlen; lia].
  - destruct s as [|a [|b s]]; [constructor | |].
    + constructor; [discriminate | constructor].
    + rewrite codePoints_pair. cbn [length] in Hlen.
      destruct (isHighSurrogate a && isLowSurrogate b);
        (constructor; [discriminate | apply IH; cbn [length]; lia]).
Qed.

Lemma clusters_nonempty rt cps :
  forall before current,
    current <> [] -> Forall (fun u => u <> []) cps ->
    Forall (fun u => u <> []) (clusters rt before current cps).
Proof.
  induction cps as [|cp cps IH]; intros before current Hcur Hall;
    cbn [clusters].
  - constructor; [exact Hcur | constructor].
  - inversion Hall as [|? ? Hcp Hrest]; subst.
    destruct (graphemeBreak rt before cp).
    + constructor; [exact Hcur | apply IH; assumption].
    + apply IH; [|exact Hrest].
      destruct current; [contradiction | discriminate].
Qed.

Lemma graphemes_nonempty rt s : Forall (fun u => u <> []) (graphemes rt s).
Proof.
  pose proof (codePoints_nonempty_bounded (length s) s (le_n _)) as Hcp.
  unfold graphemes, segments. destruct (hasSegmenter rt); [|exact Hcp].
  destruct (codePoints s) as [|cp cps]; [constructor|].
  inversion Hcp; subst. apply clusters_nonempty; assumption.
Qed.

Lemma concat_length_nonempty {A} (l : list (list A)) :
  Forall (fun u => u <> []) l -> (length l <= length (concat l))%nat.
Proof.
  induction 1 as [|u l Hu _ IH]; [apply le_n|].
  cbn [concat length]. rewrite length_app.
  destruct u; [contradiction | cbn [length]; lia].
Qed.

Lemma countGraphemes_zero rt s : countGraphemes rt s = 0 -> s = [].
Proof.
  rewrite countGraphemes_length. intros H0.
  pose proof (graphemes_join rt s) as Hjoin.
  destruct (graphemes rt s); [|cbn [length] in H0; lia].
  rewrite <- Hjoin. reflexivity.
Qed.

(** X2.  [countGraphemes(s)] is 0 for the empty string only, and never
    more than the number of code units of [s]: the guard
    [Math.max(graphemeCount, 1)] of the font size matters for the empty
    text alone. *)
Theorem countGraphemes_bounds (rt : Runtime) (s : jsstring) :
  (countGraphemes rt s = 0 <-> s = [])
  /\ 0 <= countGraphemes rt s <= Z.of_nat (length s).
Proof.
  rewrite countGraphemes_length.
  pose proof (graphemes_join rt s) as Hjoin.
  pose proof (concat_length_nonempty _ (graphemes_nonempty rt s)) as Hlen.
  unfold join in Hjoin. rewrite Hjoin in Hlen. unfold jsstring in *.
  split; [split|lia].
  - rewrite <- countGraphemes_length. apply countGraphemes_zero.
  - intros ->. unfold graphemes, segments.
    destruct (hasSegmenter rt); reflexivity.
Qed.

(* ================================================================== *)
(** ** The parsed options *)

Lemma parseAvatarOptions_text rt url options :
  parseAvatarOptions rt url = Return options ->
  text options = DEFAULTS.text
  \/ (text options <> []
      /\ exists unicodeText,
           text options
           = getFirstGraphemes rt unicodeText DEFAULTS.maxTextLength).
Proof.
  unfold parseAvatarOptions. intros H.
  destruct (startsWith (pathname url) BASEPATH).
  - destruct (decodeURIComponent _) as [decodedText|e| |];
      cbn [bind] in H; try discriminate.
    destruct (decodePunycodeIfNeeded decodedText) as [unicodeText|e| |];
      cbn [bind] in H; try discriminate.
    injection H as <-. cbn [text].
    destruct (getFirstGraphemes rt unicodeText DEFAULTS.maxTextLength)
      as [|c t] eqn:E; [left; reflexivity|].
    right. split; [discriminate|]. exists unicodeText. symmetry. exact E.
  - cbn [bind] in H. injection H as <-. left. reflexivity.
Qed.

Lemma parseAvatarOptions_text_nonempty rt url options :
  parseAvatarOptions rt url = Return options -> text options <> [].
Proof.
  intros H.
  destruct (parseAvatarOptions_text rt url options H) as [->|[Hne _]];
    [discriminate | exact Hne].
Qed.

Lemma parseAvatarOptions_text_count rt url options :
  parseAvatarOptions rt url = Return options ->
  1 <= countGraphemes rt (text options) <= 2.
Proof.
  intros H.
  pose proof (parseAvatarOptions_text_nonempty rt url options H) as Hne.
  split.
  - destruct (Z.eq_dec (countGraphemes rt (text options)) 0) as [E|E];
      [apply countGraphemes_zero in E; contradiction|].
    rewrite countGraphemes_length in *. lia.
  - destruct (parseAvatarOptions_text rt url options H)
      as [->|[_ [unicodeText ->]]].
    + unfold countGraphemes, segments. destruct (hasSegmenter rt); cbn; lia.
    + rewrite countGraphemes_length, graphemes_getFirstGraphemes
        by (unfold DEFAULTS.maxTextLength; lia).
      rewrite length_firstn. unfold DEFAULTS.maxTextLength. lia.
Qed.

(** X3.  The text of every parsed avatar is non-empty and holds one or two
    graphemes, as [countGraphemes] counts them. *)
Theorem parseAvatarOptions_text_graphemes rt url options :
  parseAvatarOptions rt url = Return options ->
  text options <> [] /\ 1 <= countGraphemes rt (text options) <= 2.
Proof.
  intros H. split.
  - exact (parseAvatarOptions_text_nonempty rt url options H).
  - exact (parseAvatarOptions_text_count rt url options H).
Qed.

Lemma parseAvatarOptions_text_graphemes_witness :
  let url := {| pathname := str "/avatar/John"; searchParams := [] |} in
  let options := {| size := 60; text := str "Jo"; shape := None;
                    isRootPath := false |} in
  parseAvatarOptions combiningRuntime url = Return options
  /\ text options <> []
  /\ 1 <= countGraphemes combiningRuntime (text options) <= 2.
Proof.
  cbv zeta.
  assert (H : parseAvatarOptions combiningRuntime
                {| pathname := str "/avatar/John"; searchParams := [] |}
              = Return {| size := 60; text := str "Jo"; shape := None;
                          isRootPath := false |})
    by (vm_compute; reflexivity).
  exact (conj H (parseAvatarOptions_text_graphemes _ _ _ H)).
Defined.

Lemma parseAvatarOptions_fields rt url options :
  parseAvatarOptions rt url = Return options ->
  shape options = searchParams_get url (str "shape")
  /\ isRootPath options = jsstring_eqb (pathname url) (str "/").
Proof.
  unfold parseAvatarOptions. intros H.
  destruct (if startsWith (pathname url) BASEPATH then _ else _)
    as [avatarText|e| |]; cbn [bind] in H; try discriminate.
  injection H as <-. split; reflexivity.
Qed.

(** X4.  The font size of every parsed avatar is positive and smaller
    than the size of the avatar: the text cannot outgrow the image.  (The
    sizes are the integers from 1 to 1000 and the text holds one or two
    graphemes; the floating-point quotients are computed for all of
    them.) *)
Theorem parseAvatarOptions_font_size_fits rt url options :
  parseAvatarOptions rt url = Return options ->
  let fontSize := calculateFontSize rt (size options) (text options) in
  PrimFloat.ltb 0%float fontSize = true
  /\ PrimFloat.ltb fontSize (numberOf (size options)) = true.
Proof.
  intros H. cbv zeta.
  pose proof (parseAvatarOptions_text_count rt url options H) as Hcount.
  pose proof (parseAvatarOptions_size_eq rt url options H) as Hsize.
  assert (Hrange : 1 <= size options <= 1000) by (rewrite Hsize; lia).
  clear Hsize H.
  assert (Hall : forallb (fun n => fontSizeFits 1 (Z.of_nat n)
                                   && fontSizeFits 2 (Z.of_nat n))
                         (seq 1 1000) = true)
    by (vm_compute; reflexivity).
  rewrite forallb_forall in Hall.
  specialize (Hall (Z.to_nat (size options))).
  rewrite Z2Nat.id in Hall by lia.
  assert (Hin : In (Z.to_nat (size options)) (seq 1 1000))
    by (apply in_seq; lia).
  apply Hall in Hin. apply andb_true_iff in Hin. destruct Hin as [H1 H2].
  unfold calculateFontSize.
  assert (Hc : countGraphemes rt (text options) = 1
               \/ countGraphemes rt (text options) = 2) by lia.
  destruct Hc as [-> | ->].
  - unfold fontSizeFits in H1. apply andb_true_iff in H1. exact H1.
  - unfold fontSizeFits in H2. apply andb_true_iff in H2. exact H2.
Qed.

Lemma parseAvatarOptions_font_size_fits_witness :
  let url := {| pathname := str "/avatar/John";
                searchParams := [(str "s", str "7")] |} in
  let options := {| size := 7; text := str "Jo"; shape := None;
                    isRootPath := false |} in
  parseAvatarOptions combiningRuntime url = Return options
  /\ PrimFloat.ltb 0%float (calculateFontSize combiningRuntime 7 (str "Jo"))
     = true
  /\ PrimFloat.ltb (calculateFontSize combiningRuntime 7 (str "Jo"))
       (numberOf 7) = true.
Proof.
  cbv zeta.
  assert (H : parseAvatarOptions combiningRuntime
                {| pathname := str "/avatar/John";
                   searchParams := [(str "s", str "7")] |}
              = Return {| size := 7; text := str "Jo"; shape := None;
                          isRootPath := false |})
    by (vm_compute; reflexivity).
  exact (conj H (parseAvatarOptions_font_size_fits _ _ _ H)).
Defined.

(* ================================================================== *)
(** ** Responses *)

(** X5.  Every response carries the content type of SVG; its cache
    header is [no-cache] when the path of the request is exactly [/] and
    the long-term value for every other path. *)
Theorem handleRequest_headers rt random url response :
  handleRequest rt random url = Return response ->
  contentType response = str "image/svg+xml; charset=utf-8"
  /\ (pathname url = str "/" -> cacheControl response = CACHE.none)
  /\ (pathname url <> str "/" -> cacheControl response = CACHE.longTerm).
Proof.
  unfold handleRequest. intros H.
  destruct (parseAvatarOptions rt url) as [options|e| |] eqn:Eparse;
    cbn [bind] in H; try discriminate.
  destruct (parseAvatarOptions_fields rt url options Eparse) as [_ Hroot].
  destruct (getGradientColors random 0) as [[color1 color2] next].
  injection H as <-. cbn [contentType cacheControl createSvgResponse].
  rewrite Hroot. split; [reflexivity|]. split.
  - intros ->. reflexivity.
  - intros Hne. destruct (jsstring_eqb (pathname url) (str "/")) eqn:E;
      [|reflexivity].
    apply jsstring_eqb_eq in E. contradiction.
Qed.

Lemma handleRequest_headers_witness :
  exists response,
    handleRequest fallbackRuntime (fun _ => 10)
      {| pathname := str "/"; searchParams := [] |} = Return response
    /\ cacheControl response = str "no-cache".
Proof.
  destruct (handleRequest fallbackRuntime (fun _ => 10)
              {| pathname := str "/"; searchParams := [] |})
    as [response| | |] eqn:E; try (vm_compute in E; discriminate).
  exists response. split; [reflexivity|].
  exact (proj1 (proj2 (handleRequest_headers _ _ _ _ E)) eq_refl).
Defined.

(** X6.  A request whose path does not start with [/avatar/] (the root
    path among them) never fails: it gets the avatar of the default text
    [A], whatever its query parameters are. *)
Theorem handleRequest_default_text rt random url :
  startsWith (pathname url) BASEPATH = false ->
  exists options response,
    parseAvatarOptions rt url = Return options
    /\ text options = str "A"
    /\ handleRequest rt random url = Return response
    /\ body response
       = generateSvgAvatar rt (size options) (str "A")
           (getShapeStyle (shape options))
           (fst (fst (getGradientColors random 0)))
           (snd (fst (getGradientColors random 0))).
Proof.
  intros Hpath. unfold handleRequest, parseAvatarOptions. rewrite Hpath.
  cbn [bind].
  destruct (getGradientColors random 0) as [[color1 color2] next].
  eexists. eexists. split; [reflexivity|].
  split; [reflexivity|]. split; reflexivity.
Qed.

Lemma handleRequest_default_text_witness :
  startsWith (str "/favicon.ico") BASEPATH = false
  /\ exists options response,
       parseAvatarOptions fallbackRuntime
         {| pathname := str "/favicon.ico"; searchParams := [] |}
       = Return options
       /\ text options = str "A"
       /\ handleRequest fallbackRuntime (fun _ => 0)
            {| pathname := str "/favicon.ico"; searchParams := [] |}
          = Return response.
Proof.
  split; [reflexivity|].
  destruct (handleRequest_default_text fallbackRuntime (fun _ => 0)
              {| pathname := str "/favicon.ico"; searchParams := [] |}
              eq_refl) as (options & response & H1 & H2 & H3 & _).
  exists options, response. repeat split; assumption.
Defined.

Lemma In_skipn {A} (x : A) k (l : list A) : In x (skipn k l) -> In x l.
Proof.
  revert l. induction k as [|k IH]; intros l H; [exact H|].
  destruct l as [|a l]; [exact H|]. right. exact (IH l H).
Qed.

Lemma decodeURI_loop_plain fuel :
  forall s, (length s <= fuel)%nat -> ~ In 37 s ->
            decodeURI_loop fuel s = Return s.
Proof.
  induction fuel as [|f IH]; intros s Hlen Hno.
  - destruct s; [reflexivity | cbn [length] in Hlen; lia].
  - destruct s as [|C s]; [reflexivity|]. cbn [decodeURI_loop].
    cbn [length] in Hlen.
    replace (C =? 37) with false
      by (symmetry; apply Z.eqb_neq; intros ->; apply Hno; left; reflexivity).
    rewrite IH; [reflexivity | lia |].
    intros Hin. apply Hno. right. exact Hin.
Qed.

(** X7.  A request whose path holds no percent sign never fails: the
    URIError of [decodeURIComponent] is the only error that can leave
    [handleRequest], and it needs a percent sign.  If moreover the text of
    the path does not start with [xn--], the request gets a response. *)
Theorem handleRequest_without_escape rt random url :
  ~ In 37 (pathname url) ->
  ((exists response, handleRequest rt random url = Return response)
   \/ handleRequest rt random url = Inexact)
  /\ (isPunycode (sliceFrom (pathname url) (length BASEPATH)) = false ->
      exists response, handleRequest rt random url = Return response).
Proof.
  intros Hno. unfold handleRequest, parseAvatarOptions.
  destruct (startsWith (pathname url) BASEPATH).
  - unfold decodeURIComponent.
    rewrite decodeURI_loop_plain;
      [| apply le_n | intros Hin; apply Hno; exact (In_skipn _ _ _ Hin)].
    cbn [bind].
    set (rawText := sliceFrom (pathname url) (length BASEPATH)).
    split.
    + destruct (decodePunycodeIfNeeded_outcome rawText) as [[r ->]| ->];
        cbn [bind].
      * left. destruct (getGradientColors random 0) as [[c1 c2] next].
        eexists. reflexivity.
      * right. reflexivity.
    + intros Hplain. unfold decodePunycodeIfNeeded. rewrite Hplain.
      cbn [negb bind].
      destruct (getGradientColors random 0) as [[c1 c2] next].
      eexists. reflexivity.
  - cbn [bind]. destruct (getGradientColors random 0) as [[c1 c2] next].
    split; [left|intros _]; eexists; reflexivity.
Qed.

Lemma handleRequest_without_escape_witness :
  ~ In 37 (str "/avatar/JD")
  /\ exists response,
       handleRequest fallbackRuntime (fun _ => 3)
         {| pathname := str "/avatar/JD"; searchParams := [] |}
       = Return response.
Proof.
  assert (H : ~ In 37 (str "/avatar/JD"))
    by (cbn; intros Hin; repeat destruct Hin as [Hin|Hin];
        try discriminate; exact Hin).
  split; [exact H|].
  exact (proj2 (handleRequest_without_escape fallbackRuntime (fun _ => 3)
                  {| pathname := str "/avatar/JD"; searchParams := [] |} H)
               eq_refl).
Defined.

(* ================================================================== *)
(** ** The shape style *)

(** X8.  For the absent parameter and for every value that is not the
    name of a property of [Object.prototype], [getShapeStyle] returns the
    style of a circle for [circle], the style of rounded corners for
    [rounded] and the empty string for everything else. *)
Theorem getShapeStyle_plain (shape : jsstring) :
  lookup ObjectPrototype shape = None ->
  (shape = str "circle" ->
   getShapeStyle (Some shape)
   = VString (str "style=" ++ quote ++ str "border-radius: 50%;" ++ quote))
  /\ (shape = str "rounded" ->
      getShapeStyle (Some shape)
      = VString (str "style=" ++ quote ++ str "border-radius: 10px;" ++ quote))
  /\ (shape <> str "circle" -> shape <> str "rounded" ->
      getShapeStyle (Some shape) = VString [])
  /\ getShapeStyle None = VString [].
Proof.
  intros Hplain. repeat split.
  - intros ->. reflexivity.
  - intros ->. reflexivity.
  - intros H1 H2. apply getShapeStyle_other; [| |exact Hplain].
    + destruct (jsstring_eqb (str "circle") shape) eqn:E; [|reflexivity].
      apply jsstring_eqb_eq in E. congruence.
    + destruct (jsstring_eqb (str "rounded") shape) eqn:E; [|reflexivity].
      apply jsstring_eqb_eq in E. congruence.
Qed.

Lemma getShapeStyle_plain_witness :
  lookup ObjectPrototype (str "square") = None
  /\ getShapeStyle (Some (str "square")) = VString [].
Proof.
  assert (H : lookup ObjectPrototype (str "square") = None) by reflexivity.
  split; [exact H|].
  apply (proj1 (proj2 (proj2 (getShapeStyle_plain (str "square") H))));
    discriminate.
Defined.

(* ================================================================== *)
(** ** More on the escaping of the text *)

Lemma xmlSpecial_values c :
  xmlSpecial c = true -> c = 38 \/ c = 60 \/ c = 62 \/ c = 34 \/ c = 39.
Proof. unfold xmlSpecial. lia. Qed.

(** X9.  [escapeXml] works code unit by code unit: it distributes over
    concatenation, it leaves a text without the five characters as it is,
    and it never shortens a text. *)
Theorem escapeXml_pieces (s p : jsstring) :
  escapeXml (s ++ p) = escapeXml s ++ escapeXml p
  /\ (Forall (fun c => xmlSpecial c = false) s -> escapeXml s = s)
  /\ (length s <= length (escapeXml s))%nat.
Proof.
  split; [apply flat_map_app|]. split.
  - induction 1 as [|c s Hc _ IH]; [reflexivity|].
    rewrite escapeXml_cons, Hc, IH. reflexivity.
  - induction s as [|c s IH]; [apply le_n|].
    rewrite escapeXml_cons, length_app. cbn [length].
    destruct (xmlSpecial c) eqn:E; [|cbn [length]; lia].
    destruct (xmlEntities_tail c E) as (tail & -> & _). cbn [length]. lia.
Qed.

Lemma escapeXml_pieces_witness :
  Forall (fun c => xmlSpecial c = false) (str "JD")
  /\ escapeXml (str "JD") = str "JD".
Proof.
  assert (H : Forall (fun c => xmlSpecial c = false) (str "JD"))
    by (repeat constructor).
  exact (conj H (proj1 (proj2 (escapeXml_pieces (str "JD") [])) H)).
Defined.

(** X10.  [escapeXml] loses nothing: two texts with the same escaped form
    are the same text. *)
Theorem escapeXml_injective (s p : jsstring) :
  escapeXml s = escapeXml p -> s = p.
Proof.
  revert p. induction s as [|a s IH]; intros [|b p] H.
  - reflexivity.
  - rewrite escapeXml_cons in H. destruct (xmlSpecial b) eqn:Eb.
    + destruct (xmlEntities_tail b Eb) as (tail & Hb & _).
      rewrite Hb in H. discriminate.
    + discriminate.
  - rewrite escapeXml_cons in H. destruct (xmlSpecial a) eqn:Ea.
    + destruct (xmlEntities_tail a Ea) as (tail & Ha & _).
      rewrite Ha in H. discriminate.
    + discriminate.
  - rewrite !escapeXml_cons in H.
    destruct (xmlSpecial a) eqn:Ea, (xmlSpecial b) eqn:Eb.
    + apply xmlSpecial_values in Ea. apply xmlSpecial_values in Eb.
      destruct Ea as [->|[->|[->|[->| ->]]]];
        destruct Eb as [->|[->|[->|[->| ->]]]];
        cbn in H; try discriminate;
        (f_equal; apply IH; congruence).
    + destruct (xmlEntities_tail a Ea) as (tail & Ha & _).
      apply xmlSpecial_false in Eb. rewrite Ha in H. cbn [app] in H.
      injection H as H _. lia.
    + destruct (xmlEntities_tail b Eb) as (tail & Hb & _).
      apply xmlSpecial_false in Ea. rewrite Hb in H. cbn [app] in H.
      injection H as H _. lia.
    + cbn [app] in H. injection H as -> H. f_equal. exact (IH p H).
Qed.

Lemma escapeXml_injective_witness :
  escapeXml (str "a&b") = escapeXml [97; 38; 98]
  /\ str "a&b" = [97; 38; 98].
Proof.
  assert (H : escapeXml (str "a&b") = escapeXml [97; 38; 98]) by reflexivity.
  exact (conj H (escapeXml_injective _ _ H)).
Defined.

(* ================================================================== *)
(** ** Digits and the bias *)

Lemma punycodeDigitToBasic_upper c :
  punycodeDigitToBasic (asciiUpper c) = punycodeDigitToBasic c.
Proof.
  unfold punycodeDigitToBasic, asciiUpper.
  destruct ((97 <=? c) && (c <=? 122)) eqn:E3; [|rewrite ?E3; reflexivity].
  rewrite ?E3.
  replace ((48 <=? c - 32) && (c - 32 <=? 57)) with false by lia.
  replace ((65 <=? c - 32) && (c - 32 <=? 90)) with true by lia.
  replace ((48 <=? c) && (c <=? 57)) with false by lia.
  replace ((65 <=? c) && (c <=? 90)) with false by lia.
  f_equal. lia.
Qed.

(** X11.  [punycodeDigitToBasic] gives a value from 0 to 35 exactly on the
    ASCII letters and decimal digits, and no value on any other code unit;
    a letter has the same value in both cases; and the value of the code
    point that RFC 3492 assigns to a digit-value is that digit-value. *)
Theorem punycodeDigitToBasic_spec (c : Z) :
  (forall d, punycodeDigitToBasic c = Some d -> 0 <= d <= 35)
  /\ (punycodeDigitToBasic c = None <->
      ~ (48 <= c <= 57 \/ 65 <= c <= 90 \/ 97 <= c <= 122))
  /\ punycodeDigitToBasic (asciiUpper c) = punycodeDigitToBasic c
  /\ (0 <= c < 36 ->
      punycodeDigitToBasic (RFC3492.digit_code_point c) = Some c).
Proof.
  unfold punycodeDigitToBasic, asciiUpper.
  split; [|split; [|split]].
  - intros d H.
    destruct ((48 <=? c) && (c <=? 57)) eqn:E1;
      [injection H as <-; lia|].
    destruct ((65 <=? c) && (c <=? 90)) eqn:E2;
      [injection H as <-; lia|].
    destruct ((97 <=? c) && (c <=? 122)) eqn:E3;
      [injection H as <-; lia | discriminate].
  - destruct ((48 <=? c) && (c <=? 57)) eqn:E1;
      [split; [discriminate | lia]|].
    destruct ((65 <=? c) && (c <=? 90)) eqn:E2;
      [split; [discriminate | lia]|].
    destruct ((97 <=? c) && (c <=? 122)) eqn:E3;
      [split; [discriminate | lia] | split; [lia | reflexivity]].
  - fold (asciiUpper c). apply punycodeDigitToBasic_upper.
  - apply digit_round_trip.
Qed.

Lemma punycodeDigitToBasic_spec_witness :
  punycodeDigitToBasic 90 = Some 25 /\ 0 <= 25 <= 35.
Proof.
  assert (H : punycodeDigitToBasic 90 = Some 25) by reflexivity.
  exact (conj H (proj1 (punycodeDigitToBasic_spec 90) 25 H)).
Defined.

Lemma adapt_while_k fuel :
  forall delta k, 0 <= k -> 0 <= snd (RFC3492.adapt_while fuel delta k).
Proof.
  induction fuel as [|f IH]; intros delta k Hk; [exact Hk|].
  cbn [RFC3492.adapt_while].
  destruct (delta >? _); [|exact Hk].
  apply IH. unfold RFC3492.base. lia.
Qed.

(** X12.  For a delta below 2^31 [punycodAdapt] computes the bias
    adaptation of RFC 3492, section 6.1: the result is a number (the
    division by zero behind [-Infinity] needs a wrapped delta), it is the
    bias of the RFC, and it is not negative. *)
Theorem punycodAdapt_in_range (delta numPoints : Z) (firstTime : bool) :
  0 <= delta < 2 ^ 31 -> 1 <= numPoints ->
  punycodAdapt delta numPoints firstTime
  = Num (RFC3492.adapt delta numPoints firstTime)
  /\ 0 <= RFC3492.adapt delta numPoints firstTime.
Proof.
  intros Hd Hn. split; [apply punycodAdapt_rfc; assumption|].
  unfold RFC3492.adapt.
  set (d1 := if firstTime then delta / RFC3492.damp else delta / 2).
  assert (Hd1 : 0 <= d1)
    by (subst d1; destruct firstTime; apply Z.div_pos; try lia; reflexivity).
  assert (Hd2 : 0 <= d1 + d1 / numPoints)
    by (assert (0 <= d1 / numPoints) by (apply Z.div_pos; lia); lia).
  pose proof (adapt_while_nonneg (Z.to_nat (Z.log2 (d1 + d1 / numPoints)))
                (d1 + d1 / numPoints) 0 Hd2) as Hnn.
  pose proof (adapt_while_k (Z.to_nat (Z.log2 (d1 + d1 / numPoints)))
                (d1 + d1 / numPoints) 0 (Z.le_refl 0)) as Hk.
  destruct (RFC3492.adapt_while _ _ _) as [d3 k]. cbn [fst snd] in *.
  assert (0 <= (RFC3492.base - RFC3492.tmin + 1) * d3 / (d3 + RFC3492.skew)).
  { apply Z.div_pos; unfold RFC3492.base, RFC3492.tmin, RFC3492.skew; lia. }
  lia.
Qed.

Lemma punycodAdapt_in_range_witness :
  0 <= 2000 < 2 ^ 31 /\ 1 <= 2001
  /\ punycodAdapt 2000 2001 true = Num 1.
Proof.
  assert (H1 : 0 <= 2000 < 2 ^ 31) by lia.
  assert (H2 : 1 <= 2001) by lia.
  exact (conj H1 (conj H2 (proj1 (punycodAdapt_in_range 2000 2001 true H1 H2)))).
Defined.

(* ================================================================== *)
(** ** The split of a label *)

Lemma lastIndexOf_spec input c :
  (lastIndexOf input c = -1 /\ ~ In c input)
  \/ (exists before after,
        input = before ++ c :: after /\ ~ In c after
        /\ lastIndexOf input c = Z.of_nat (length before)).
Proof.
  induction input as [|a input IH]; [left; split; [reflexivity | intros []]|].
  cbn [lastIndexOf].
  destruct IH as [[Hr Hno]|(before & after & Heq & Hno & Hr)].
  - rewrite Hr. replace (0 <=? -1) with false by reflexivity.
    destruct (a =? c) eqn:E.
    + right. apply Z.eqb_eq in E. subst a.
      exists [], input. repeat split; [exact Hno].
    + left. split; [reflexivity|].
      intros [Hin|Hin]; [lia | contradiction].
  - right. rewrite Hr.
    replace (0 <=? Z.of_nat (length before)) with true by lia.
    exists (a :: before), after. subst input.
    repeat split; [exact Hno | cbn [length]; lia].
Qed.

Lemma portions_split (input : jsstring) :
  (0 < basicLength input ->
   input = basicPortion input ++ PUNYCODE.delimiter :: encodedPortion input
   /\ ~ In PUNYCODE.delimiter (encodedPortion input))
  /\ (basicLength input = 0 ->
      basicPortion input = [] /\ encodedPortion input = input)
  /\ 0 <= basicLength input.
Proof.
  unfold basicPortion, encodedPortion, basicLength.
  destruct (lastIndexOf_spec input PUNYCODE.delimiter)
    as [[Hr Hno]|(before & after & Heq & Hno & Hr)]; rewrite Hr.
  - cbn. repeat split; try lia.
  - replace (Z.of_nat (length before) <? 0) with false by lia.
    split; [|split; [|lia]].
    + intros Hpos. rewrite (proj2 (Z.ltb_lt _ _) Hpos).
      rewrite Nat2Z.id.
      replace (Z.to_nat (Z.of_nat (length before) + 1))
        with (length before + 1)%nat by lia.
      rewrite Heq at 2 3 4.
      rewrite firstn_app, Nat.sub_diag, firstn_all. cbn [firstn].
      rewrite app_nil_r, skipn_app, skipn_all2 by lia.
      replace (length before + 1 - length before)%nat with 1%nat by lia.
      cbn [skipn app]. split; [exact Heq | exact Hno].
    + intros H0. rewrite H0. cbn. split; reflexivity.
Qed.

(** X13.  [punycodeDecode] copies the basic portion of a label and decodes
    its encoded portion, and it splits the label at its last delimiter,
    provided that one is not the first code unit: the basic portion, the
    delimiter and the encoded portion make up the label, and the encoded
    portion holds no delimiter.  A label with no delimiter, or with its
    only delimiter in front, is encoded portion as a whole. *)
Theorem punycodeDecode_split (input : jsstring) :
  punycodeDecode input
  = (output <- copy_basic (basicPortion input) ;;
     decode_loop (length (encodedPortion input)) (encodedPortion input)
       output 0 PUNYCODE.initialN (Num PUNYCODE.initialBias))
  /\ (0 < basicLength input ->
      input = basicPortion input ++ PUNYCODE.delimiter :: encodedPortion input
      /\ ~ In PUNYCODE.delimiter (encodedPortion input))
  /\ (basicLength input = 0 ->
      basicPortion input = [] /\ encodedPortion input = input).
Proof.
  destruct (portions_split input) as (Hpos & Hzero & _).
  split; [apply punycodeDecode_portions|]. split; assumption.
Qed.

Lemma punycodeDecode_split_witness :
  0 < basicLength (str "bcher-kva")
  /\ str "bcher-kva"
     = basicPortion (str "bcher-kva")
       ++ PUNYCODE.delimiter :: encodedPortion (str "bcher-kva")
  /\ ~ In PUNYCODE.delimiter (encodedPortion (str "bcher-kva")).
Proof.
  assert (H : 0 < basicLength (str "bcher-kva")) by reflexivity.
  exact (conj H (proj1 (proj2 (punycodeDecode_split (str "bcher-kva"))) H)).
Defined.

Lemma utf16_ascii basic :
  Forall (fun c => c < 128) basic -> join (cells basic) = basic.
Proof.
  induction 1 as [|c basic Hc _ IH]; [reflexivity|].
  unfold join, cells in *. cbn [map concat]. rewrite IH.
  unfold utf16_code_point. replace (c <=? 65535) with true by lia.
  reflexivity.
Qed.

(** X14.  The edges of the delimiter.  A label that ends with its
    delimiter decodes to its basic portion, the ASCII code units before
    it; a label whose only delimiter is its first code unit has that
    delimiter read as a digit, and fails on it; the empty label decodes to
    the empty string. *)
Theorem punycodeDecode_delimiter_edges (basic rest : jsstring) :
  (basic <> [] -> Forall (fun c => c < 128) basic ->
   punycodeDecode (basic ++ [PUNYCODE.delimiter]) = Return basic)
  /\ (~ In PUNYCODE.delimiter rest ->
      punycodeDecode (PUNYCODE.delimiter :: rest) = Throw InvalidDigit)
  /\ punycodeDecode [] = Return [].
Proof.
  split; [|split; [|reflexivity]].
  - intros Hne Hascii. unfold punycodeDecode.
    rewrite lastIndexOf_last by constructor.
    assert (Hlen : (0 < length basic)%nat)
      by (destruct basic; [contradiction | cbn [length]; lia]).
    replace (Z.of_nat (length basic) <? 0) with false by lia.
    replace (0 <? Z.of_nat (length basic)) with true by lia.
    rewrite Nat2Z.id.
    replace (Z.to_nat (Z.of_nat (length basic) + 1))
      with (length basic + 1)%nat by lia.
    rewrite firstn_app, Nat.sub_diag, firstn_all. cbn [firstn].
    rewrite app_nil_r, copy_basic_cells by exact Hascii. cbn [bind].
    rewrite skipn_app, skipn_all2 by lia.
    replace (length basic + 1 - length basic)%nat with 1%nat by lia.
    cbn [skipn app length decode_loop].
    rewrite utf16_ascii by exact Hascii. reflexivity.
  - intros Hno. unfold punycodeDecode.
    pose proof (lastIndexOf_last [] PUNYCODE.delimiter rest) as Hlast.
    cbn [app length] in Hlast. rewrite Hlast
      by (apply Forall_forall; intros a Ha ->; contradiction).
    reflexivity.
Qed.

Lemma punycodeDecode_delimiter_edges_witness :
  str "JD" <> [] /\ Forall (fun c => c < 128) (str "JD")
  /\ punycodeDecode (str "JD-") = Return (str "JD").
Proof.
  assert (H1 : str "JD" <> []) by discriminate.
  assert (H2 : Forall (fun c => c < 128) (str "JD"))
    by (repeat constructor).
  exact (conj H1 (conj H2
           (proj1 (punycodeDecode_delimiter_edges (str "JD") []) H1 H2))).
Defined.

(* ================================================================== *)
(** ** The last digit of an integer *)

(** The digit on which [decode_integer] stops is below 26: a letter. *)
Lemma decode_integer_last rest :
  forall i w k bias i' rest',
    decode_integer rest i w k bias = Return (i', rest') ->
    exists before c d,
      rest = before ++ c :: rest'
      /\ punycodeDigitToBasic c = Some d /\ d < 26.
Proof.
  induction rest as [|c rest IH]; intros i w k bias i' rest' H;
    cbn [decode_integer] in H; [discriminate|].
  destruct (punycodeDigitToBasic c) as [digit|] eqn:Ec; [|discriminate].
  unfold safe in H. destruct (_ <=? _); cbn [bind] in H; [|discriminate].
  pose proof (threshold_range k bias) as Ht.
  destruct (digit <? threshold k bias) eqn:Elt.
  - injection H as _ <-. exists [], c, digit.
    repeat split; [exact Ec | lia].
  - destruct (IH _ _ _ _ _ _ H) as (before & c' & d & -> & Hc' & Hd).
    exists (c :: before), c', d. repeat split; assumption.
Qed.

Lemma decode_loop_decimal_end fuel :
  forall rest output i n bias front z dz s,
    rest = front ++ [z] ->
    punycodeDigitToBasic z = Some dz -> 26 <= dz ->
    decode_loop fuel rest output i n bias <> Return s.
Proof.
  induction fuel as [|f IH];
    intros rest output i n bias front z dz s Hrest Hz Hdz.
  - destruct rest; [destruct front; discriminate | discriminate].
  - destruct rest as [|c rest]; [destruct front; discriminate|].
    cbn [decode_loop].
    destruct (decode_integer (c :: rest) i 1 PUNYCODE.base bias)
      as [[i' rest']|e| |] eqn:E; cbn [bind]; try discriminate.
    destruct (decode_integer_last _ _ _ _ _ _ _ E)
      as (before & c' & d & Hsplit & Hc' & Hd).
    destruct (fromCodePoint _) as [ch|e| |]; cbn [bind]; try discriminate.
    destruct (exists_last (l := rest')) as (front' & z' & Hlast).
    + intros ->. rewrite Hrest in Hsplit.
      change (before ++ [c']) with (before ++ [c']) in Hsplit.
      apply app_inj_tail in Hsplit. destruct Hsplit as [_ ->].
      rewrite Hz in Hc'. injection Hc' as ->. lia.
    + assert (z' = z).
      { rewrite Hrest, Hlast in Hsplit.
        change (before ++ c' :: front' ++ [z'])
          with (before ++ (c' :: front') ++ [z']) in Hsplit.
        rewrite app_assoc in Hsplit.
        apply app_inj_tail in Hsplit. destruct Hsplit as [_ ->].
        reflexivity. }
      subst z'. exact (IH _ _ _ _ _ front' z dz s Hlast Hz Hdz).
Qed.

(** X15.  A label that ends with a decimal digit is never decoded to a
    string: a decimal digit has a value of at least 26 and so never ends a
    variable-length integer, the input stops in the middle of one. *)
Theorem punycodeDecode_decimal_end (front : jsstring) (z : Z) (s : jsstring) :
  48 <= z <= 57 ->
  punycodeDecode (front ++ [z]) <> Return s.
Proof.
  intros Hz. rewrite punycodeDecode_portions.
  destruct (copy_basic (basicPortion (front ++ [z]))) as [output|e| |];
    cbn [bind]; try discriminate.
  assert (Hdigit : punycodeDigitToBasic z = Some (z - 48 + 26)).
  { unfold punycodeDigitToBasic.
    replace ((48 <=? z) && (z <=? 57)) with true by lia. reflexivity. }
  assert (Hend : exists front', encodedPortion (front ++ [z]) = front' ++ [z]).
  { destruct (portions_split (front ++ [z])) as (Hpos & Hzero & Hnn).
    destruct (Z.eq_dec (basicLength (front ++ [z])) 0) as [E|E].
    - destruct (Hzero E) as [_ ->]. exists front. reflexivity.
    - destruct (Hpos ltac:(lia)) as [Hsplit _].
      destruct (exists_last (l := encodedPortion (front ++ [z])))
        as (front' & z' & Hlast).
      + intros Hnil. rewrite Hnil in Hsplit.
        apply app_inj_tail in Hsplit. destruct Hsplit as [_ Heq].
        unfold PUNYCODE.delimiter in Heq. lia.
      + exists front'. rewrite Hlast in Hsplit |- *.
        change (basicPortion (front ++ [z]) ++ PUNYCODE.delimiter
                  :: front' ++ [z'])
          with (basicPortion (front ++ [z])
                  ++ (PUNYCODE.delimiter :: front') ++ [z']) in Hsplit.
        rewrite app_assoc in Hsplit.
        apply app_inj_tail in Hsplit. destruct Hsplit as [_ ->].
        reflexivity. }
  destruct Hend as [front' Hend].
  apply (decode_loop_decimal_end _ _ _ _ _ _ front' z (z - 48 + 26) s
           Hend Hdigit).
  lia.
Qed.

Lemma punycodeDecode_decimal_end_witness :
  48 <= 49 <= 57
  /\ punycodeDecode (str "wgv71") <> Return [26085; 26412].
Proof.
  assert (H : 48 <= 49 <= 57) by lia.
  exact (conj H (punycodeDecode_decimal_end (str "wgv7") 49 _ H)).
Defined.

(* ================================================================== *)
(** ** The case of the digits *)

Lemma decode_integer_map (f : Z -> Z) rest :
  (forall c, punycodeDigitToBasic (f c) = punycodeDigitToBasic c) ->
  forall i w k bias,
    decode_integer (map f rest) i w k bias
    = match decode_integer rest i w k bias with
      | Return (i', rest') => Return (i', map f rest')
      | Throw e => Throw e
      | Inexact => Inexact
      | OutOfFuel => OutOfFuel
      end.
Proof.
  intros Hf. induction rest as [|c rest IH]; intros i w k bias;
    cbn [map decode_integer]; [reflexivity|].
  rewrite Hf. destruct (punycodeDigitToBasic c) as [digit|]; [|reflexivity].
  unfold safe. destruct (_ <=? _); cbn [bind]; [|reflexivity].
  destruct (digit <? threshold k bias); [reflexivity | apply IH].
Qed.

Lemma decode_loop_map (f : Z -> Z) fuel :
  (forall c, punycodeDigitToBasic (f c) = punycodeDigitToBasic c) ->
  forall rest output i n bias,
    decode_loop fuel (map f rest) output i n bias
    = decode_loop fuel rest output i n bias.
Proof.
  intros Hf. induction fuel as [|f' IH]; intros rest output i n bias.
  - destruct rest; reflexivity.
  - destruct rest as [|c rest]; [reflexivity|].
    cbn [map decode_loop].
    change (f c :: map f rest) with (map f (c :: rest)).
    rewrite (decode_integer_map f (c :: rest) Hf).
    destruct (decode_integer (c :: rest) i 1 PUNYCODE.base bias)
      as [[i' rest']|e| |]; cbn [bind]; try reflexivity.
    destruct (fromCodePoint _); cbn [bind]; try reflexivity.
    apply IH.
Qed.

Lemma asciiUpper_delimiter c :
  asciiUpper c = PUNYCODE.delimiter <-> c = PUNYCODE.delimiter.
Proof.
  unfold asciiUpper, PUNYCODE.delimiter.
  destruct ((97 <=? c) && (c <=? 122)) eqn:E; lia.
Qed.

(** X16.  The decoder does not see the case of the letters of the encoded
    portion: a label decodes to the same result when the letters after its
    last delimiter are put in upper case. *)
Theorem punycodeDecode_upper_digits (basic digits : jsstring) :
  ~ In PUNYCODE.delimiter digits ->
  punycodeDecode (basic ++ PUNYCODE.delimiter :: map asciiUpper digits)
  = punycodeDecode (basic ++ PUNYCODE.delimiter :: digits)
  /\ punycodeDecode (map asciiUpper digits) = punycodeDecode digits.
Proof.
  intros Hno.
  assert (Hf : forall c, punycodeDigitToBasic (asciiUpper c)
                         = punycodeDigitToBasic c)
    by (intros c; apply punycodeDigitToBasic_upper).
  assert (Hall : Forall (fun a => a <> PUNYCODE.delimiter) digits)
    by (apply Forall_forall; intros a Ha ->; contradiction).
  assert (Hup : Forall (fun a => a <> PUNYCODE.delimiter)
                       (map asciiUpper digits)).
  { apply Forall_forall. intros a Ha. apply in_map_iff in Ha.
    destruct Ha as (c & <- & Hc). intros Heq.
    apply (proj1 (asciiUpper_delimiter c)) in Heq. subst c. contradiction. }
  split.
  - unfold punycodeDecode. rewrite !lastIndexOf_last by assumption.
    replace (Z.of_nat (length basic) <? 0) with false
      by (symmetry; apply Z.ltb_ge; lia).
    rewrite Nat2Z.id, !firstn_app, Nat.sub_diag, firstn_all.
    cbn [firstn]. rewrite !app_nil_r.
    destruct (copy_basic basic) as [output|e| |]; cbn [bind];
      try reflexivity.
    destruct (0 <? Z.of_nat (length basic)) eqn:Epos.
    + replace (Z.to_nat (Z.of_nat (length basic) + 1))
        with (length basic + 1)%nat by lia.
      rewrite !skipn_app, !skipn_all2 by lia.
      replace (length basic + 1 - length basic)%nat with 1%nat by lia.
      cbn [skipn app]. rewrite length_map. apply decode_loop_map. exact Hf.
    + assert (basic = []) as ->
        by (destruct basic; [reflexivity |
            apply Z.ltb_ge in Epos; cbn [length] in Epos; lia]).
      cbn [Z.to_nat skipn app].
      change (PUNYCODE.delimiter :: map asciiUpper digits)
        with (map asciiUpper (PUNYCODE.delimiter :: digits)).
      rewrite length_map. apply decode_loop_map. exact Hf.
  - unfold punycodeDecode. rewrite !lastIndexOf_absent by assumption.
    cbn [Z.ltb Z.compare Z.to_nat firstn copy_basic bind skipn].
    rewrite length_map. apply decode_loop_map. exact Hf.
Qed.

Lemma punycodeDecode_upper_digits_witness :
  ~ In PUNYCODE.delimiter (str "kva")
  /\ punycodeDecode (str "bcher-KVA") = punycodeDecode (str "bcher-kva").
Proof.
  assert (H : ~ In PUNYCODE.delimiter (str "kva"))
    by (cbn; intros Hin; repeat destruct Hin as [Hin|Hin];
        try discriminate; exact Hin).
  exact (conj H (proj1 (punycodeDecode_upper_digits (str "bcher") (str "kva")
                          H))).
Defined.

(* ================================================================== *)
(** ** The ASCII code units of a decoded label *)

Lemma asciiUnits_high s : Forall (fun c => 128 <= c) s -> asciiUnits s = [].
Proof.
  induction 1 as [|c s Hc _ IH]; [reflexivity|].
  unfold asciiUnits in *. cbn [filter].
  replace (c <? 128) with false by lia. exact IH.
Qed.

Lemma fromCodePoint_high n ch :
  128 <= n -> fromCodePoint n = Return ch -> asciiUnits ch = [].
Proof.
  intros Hn H. unfold fromCodePoint in H.
  destruct ((n <? 0) || (1114111 <? n)); [discriminate|].
  assert (Hhigh : 0 <= Z.shiftr (n - 65536) 10 -> 0 <= Z.land (n - 65536) 1023
                  -> Forall (fun c => 128 <= c)
                       [55296 + Z.shiftr (n - 65536) 10;
                        56320 + Z.land (n - 65536) 1023])
    by (intros; repeat constructor; lia).
  destruct (n <=? 65535) eqn:E.
  - injection H as <-. apply asciiUnits_high. repeat constructor. exact Hn.
  - set (hi := Z.shiftr (n - 65536) 10) in *.
    set (lo := Z.land (n - 65536) 1023) in *.
    injection H as <-. apply asciiUnits_high. apply Hhigh.
    + subst hi. apply Z.shiftr_nonneg. lia.
    + subst lo. apply Z.land_nonneg. lia.
Qed.

Lemma asciiUnits_splice output i ch :
  asciiUnits ch = [] ->
  asciiUnits (join (splice output i ch)) = asciiUnits (join output).
Proof.
  intros Hch. unfold splice, join, asciiUnits in *.
  rewrite concat_app. cbn [concat]. rewrite !filter_app, Hch. cbn [app].
  rewrite <- filter_app, <- concat_app, firstn_skipn. reflexivity.
Qed.

Lemma decode_loop_ascii fuel :
  forall rest output i n bias s,
    0 <= i -> 128 <= n ->
    decode_loop fuel rest output i n bias = Return s ->
    asciiUnits s = asciiUnits (join output).
Proof.
  induction fuel as [|f IH]; intros rest output i n bias s Hi Hn H.
  - destruct rest; [injection H as <-; reflexivity | discriminate].
  - destruct rest as [|c rest]; [injection H as <-; reflexivity|].
    cbn [decode_loop] in H.
    destruct (decode_integer (c :: rest) i 1 PUNYCODE.base bias)
      as [[i' rest']|e| |] eqn:E; cbn [bind] in H; try discriminate.
    apply decode_integer_grows in E; [|lia].
    set (outputLength := Z.of_nat (length output) + 1) in *.
    assert (Hlen : 0 < outputLength) by (subst outputLength; lia).
    assert (Hq : 0 <= i' / outputLength) by (apply Z.div_pos; lia).
    pose proof (Z.mod_pos_bound i' outputLength Hlen) as Hm.
    destruct (fromCodePoint (n + i' / outputLength)) as [ch|e| |] eqn:Ech;
      cbn [bind] in H; try discriminate.
    apply IH in H; [|lia|lia].
    rewrite H. apply asciiUnits_splice.
    apply (fromCodePoint_high (n + i' / outputLength)); [lia | exact Ech].
Qed.

Lemma asciiUnits_all s : Forall (fun c => c < 128) s -> asciiUnits s = s.
Proof.
  induction 1 as [|c s Hc _ IH]; [reflexivity|].
  unfold asciiUnits in *. cbn [filter].
  replace (c <? 128) with true by lia. rewrite IH. reflexivity.
Qed.

(** X17.  The ASCII code units of a decoded label are its basic portion:
    every code unit that the encoded portion adds is at least 128, so that
    no digits can bring an ASCII character, a markup character among them,
    into the text. *)
Theorem punycodeDecode_ascii_units (input s : jsstring) :
  punycodeDecode input = Return s ->
  asciiUnits s = basicPortion input
  /\ Forall (fun c => c < 128) (basicPortion input).
Proof.
  rewrite punycodeDecode_portions. intros H.
  destruct (copy_basic_outcome (basicPortion input))
    as [[Hall [output Hout]]|[_ Hthrow]];
    [|rewrite Hthrow in H; discriminate].
  split; [|exact Hall].
  rewrite copy_basic_cells in H by exact Hall. cbn [bind] in H.
  apply decode_loop_ascii in H; [|lia|unfold PUNYCODE.initialN; lia].
  rewrite H, utf16_ascii by exact Hall. apply asciiUnits_all. exact Hall.
Qed.

Lemma punycodeDecode_ascii_units_witness :
  punycodeDecode (str "bcher-kva") = Return [98; 252; 99; 104; 101; 114]
  /\ asciiUnits [98; 252; 99; 104; 101; 114] = str "bcher".
Proof.
  assert (H : punycodeDecode (str "bcher-kva")
              = Return [98; 252; 99; 104; 101; 114])
    by (vm_compute; reflexivity).
  exact (conj H (proj1 (punycodeDecode_ascii_units _ _ H))).
Defined.

(* ================================================================== *)
(** ** Code points without a segmenter *)

Lemma codePoints_single a s :
  isHighSurrogate a = false -> codePoints (a :: s) = [a] :: codePoints s.
Proof.
  intros Ha. destruct s as [|b s]; [reflexivity|].
  rewrite codePoints_pair, Ha. reflexivity.
Qed.

Lemma codePoints_utf16 x :
  Forall scalar_value x -> codePoints (utf16 x) = map utf16_code_point x.
Proof.
  induction 1 as [|c x [Hrange Hnot] _ IH]; [reflexivity|].
  unfold utf16 in *. cbn [map concat]. unfold utf16_code_point at 1 3.
  destruct (c <=? 65535) eqn:E.
  - cbn [app]. rewrite codePoints_single, IH; [reflexivity|].
    unfold isHighSurrogate. lia.
  - assert (Hq : 0 <= (c - 65536) / 2 ^ 10 < 1024)
      by (split; [apply Z.div_pos; lia | apply Z.div_lt_upper_bound; lia]).
    assert (Hr : 0 <= (c - 65536) mod 2 ^ 10 < 1024)
      by (apply Z.mod_pos_bound; lia).
    change 1023 with (Z.ones 10).
    rewrite Z.shiftr_div_pow2, Z.land_ones by lia.
    cbn [app]. rewrite codePoints_pair.
    replace (isHighSurrogate (55296 + (c - 65536) / 2 ^ 10)) with true
      by (unfold isHighSurrogate; lia).
    replace (isLowSurrogate (56320 + (c - 65536) mod 2 ^ 10)) with true
      by (unfold isLowSurrogate; lia).
    cbn [andb]. rewrite IH. reflexivity.
Qed.

(** X18.  Without [Intl.Segmenter] the two text functions work on code
    points and split no surrogate pair: on the UTF-16 form of a sequence
    [x] of Unicode scalar values, [getFirstGraphemes] returns the UTF-16
    form of the first [n] of them and [countGraphemes] their number. *)
Theorem getFirstGraphemes_code_points (rt : Runtime) (x : list Z) (n : Z) :
  hasSegmenter rt = false -> Forall scalar_value x -> 0 <= n ->
  getFirstGraphemes rt (utf16 x) n = utf16 (firstn (Z.to_nat n) x)
  /\ countGraphemes rt (utf16 x) = Z.of_nat (length x).
Proof.
  intros Hrt Hx Hn. split.
  - rewrite getFirstGraphemes_firstn by exact Hn.
    unfold graphemes. rewrite Hrt, codePoints_utf16 by exact Hx.
    unfold join, utf16. rewrite firstn_map. reflexivity.
  - rewrite countGraphemes_length. unfold graphemes.
    rewrite Hrt, codePoints_utf16 by exact Hx.
    rewrite length_map. reflexivity.
Qed.

Lemma getFirstGraphemes_code_points_witness :
  hasSegmenter fallbackRuntime = false
  /\ Forall scalar_value [128512; 26085; 97]
  /\ getFirstGraphemes fallbackRuntime (utf16 [128512; 26085; 97]) 2
     = utf16 [128512; 26085].
Proof.
  assert (H1 : hasSegmenter fallbackRuntime = false) by reflexivity.
  assert (H2 : Forall scalar_value [128512; 26085; 97])
    by (repeat constructor; unfold scalar_value; lia).
  assert (H3 : 0 <= 2) by lia.
  exact (conj H1 (conj H2
           (proj1 (getFirstGraphemes_code_points fallbackRuntime
                     [128512; 26085; 97] 2 H1 H2 H3)))).
Defined.

(* ================================================================== *)
(** ** Truncating twice, and from the end *)

(** X19.  Truncating to [n] graphemes and then to [m] is truncating to the
    smaller of the two; in particular truncating twice to [n] changes
    nothing the second time. *)
Theorem getFirstGraphemes_twice (rt : Runtime) (s : jsstring) (n m : Z) :
  0 <= n -> 0 <= m ->
  getFirstGraphemes rt (getFirstGraphemes rt s n) m
  = getFirstGraphemes rt s (Z.min n m).
Proof.
  intros Hn Hm.
  rewrite (getFirstGraphemes_firstn rt (getFirstGraphemes rt s n) m Hm).
  rewrite graphemes_getFirstGraphemes by exact Hn.
  rewrite (getFirstGraphemes_firstn rt s (Z.min n m)) by lia.
  rewrite firstn_firstn, Z2Nat.inj_min, Nat.min_comm. reflexivity.
Qed.

Lemma getFirstGraphemes_twice_witness :
  0 <= 3 /\ 0 <= 2
  /\ getFirstGraphemes combiningRuntime
       (getFirstGraphemes combiningRuntime (str "John") 3) 2
     = getFirstGraphemes combiningRuntime (str "John") 2.
Proof.
  assert (H1 : 0 <= 3) by lia.
  assert (H2 : 0 <= 2) by lia.
  exact (conj H1 (conj H2
           (getFirstGraphemes_twice combiningRuntime (str "John") 3 2 H1 H2))).
Defined.

(** X20.  A negative count is counted from the end, as [Array.slice]
    does: [getFirstGraphemes(s, n)] with [n < 0] drops the last [-n]
    graphemes of [s], and returns the empty string when [s] has no more
    than that. *)
Theorem getFirstGraphemes_negative (rt : Runtime) (s : jsstring) (n : Z) :
  n < 0 ->
  getFirstGraphemes rt s n
  = getFirstGraphemes rt s (Z.max (countGraphemes rt s + n) 0)
  /\ countGraphemes rt (getFirstGraphemes rt s n)
     = Z.max (countGraphemes rt s + n) 0.
Proof.
  intros Hn.
  assert (Heq : getFirstGraphemes rt s n
                = getFirstGraphemes rt s (Z.max (countGraphemes rt s + n) 0)).
  { rewrite (getFirstGraphemes_firstn rt s (Z.max _ 0)) by lia.
    rewrite countGraphemes_length.
    unfold getFirstGraphemes, graphemes, slice0.
    replace (n <? 0) with true by lia.
    destruct (hasSegmenter rt); reflexivity. }
  split; [exact Heq|].
  rewrite Heq, countGraphemes_length, graphemes_getFirstGraphemes by lia.
  rewrite length_firstn, countGraphemes_length. lia.
Qed.

Lemma getFirstGraphemes_negative_witness :
  -1 < 0
  /\ getFirstGraphemes fallbackRuntime (str "John") (-1) = str "Joh".
Proof.
  assert (H : -1 < 0) by lia.
  exact (conj H (proj1 (getFirstGraphemes_negative fallbackRuntime
                          (str "John") (-1) H))).
Defined.

(* ================================================================== *)
(** ** A Punycode label in the path *)

(** The label of the reference encoder decodes to the string it encodes,
    and it holds nothing but code points of that string, the delimiter,
    decimal digits and small letters. *)
Lemma encode_label maxint (x : list Z) (label : jsstring) :
  maxint <= 2 ^ 31 - 1 ->
  Forall code_point x ->
  Z.of_nat (length x) < 2 ^ 32 ->
  RFC3492.encode maxint x = Some label ->
  punycodeDecode label = Return (utf16 x)
  /\ (forall c, In c label ->
                In c x \/ c = PUNYCODE.delimiter
                \/ 48 <= c <= 57 \/ 97 <= c <= 122).
Proof.
  intros Hmax Hcp Hlen Henc. unfold RFC3492.encode in Henc.
  set (basic := filter RFC3492.is_basic x) in *.
  set (b := Z.of_nat (length basic)) in *.
  destruct (RFC3492.encode_while (length x) maxint x RFC3492.initial_n 0
              RFC3492.initial_bias b b) as [digits|] eqn:Ewhile;
    [|discriminate].
  injection Henc as <-.
  assert (Hrun :
    decode_from digits (cells basic) 0 PUNYCODE.initialN
      (Num PUNYCODE.initialBias) = Return (utf16 x)).
  { apply (encode_while_decoded maxint b Hmax x Hcp Hlen (length x)
             RFC3492.initial_n 0 RFC3492.initial_bias b digits 0
             RFC3492.initial_n 0 Ewhile).
    constructor.
    - reflexivity.
    - cbn [position filter length]. lia.
    - lia.
    - lia.
    - rewrite Z.eqb_refl. reflexivity.
    - lia. }
  apply encode_while_digits in Ewhile; [|lia|lia].
  assert (Hdigits : Forall (fun a => a <> PUNYCODE.delimiter) digits).
  { eapply Forall_impl; [|exact Ewhile].
    cbv beta. unfold PUNYCODE.delimiter. lia. }
  split.
  - unfold punycodeDecode.
    destruct (0 <? b) eqn:Eb.
    + change RFC3492.delimiter with PUNYCODE.delimiter. cbn [app].
      rewrite lastIndexOf_last by exact Hdigits. fold b.
      replace (b <? 0) with false by lia. rewrite Eb.
      replace (Z.to_nat b) with (length basic) by (subst b; lia).
      replace (Z.to_nat (b + 1)) with (length basic + 1)%nat
        by (subst b; lia).
      rewrite firstn_app, Nat.sub_diag, firstn_all. cbn [firstn].
      rewrite app_nil_r.
      rewrite copy_basic_cells by apply filter_basic_below. cbn [bind].
      rewrite skipn_app, skipn_all2 by lia.
      replace (length basic + 1 - length basic)%nat with 1%nat by lia.
      cbn [skipn app]. exact Hrun.
    + assert (basic = []) as Hnil
        by (destruct basic; [reflexivity | cbn [length] in b; lia]).
      rewrite Hnil in *. cbn [app].
      rewrite lastIndexOf_absent by exact Hdigits.
      cbn [Z.ltb Z.compare Z.to_nat firstn copy_basic bind skipn].
      exact Hrun.
  - intros c Hc. rewrite Forall_forall in Ewhile.
    apply in_app_or in Hc. destruct Hc as [Hc|Hc].
    + left. subst basic. apply filter_In in Hc. exact (proj1 Hc).
    + apply in_app_or in Hc. destruct Hc as [Hc|Hc].
      * destruct (0 <? b); [|destruct Hc].
        destruct Hc as [<-|[]]. right. left. reflexivity.
      * right. right. exact (Ewhile c Hc).
Qed.

Lemma sliceFrom_app p s : sliceFrom (p ++ s) (length p) = s.
Proof.
  unfold sliceFrom. rewrite skipn_app, skipn_all, Nat.sub_diag. reflexivity.
Qed.

(** X21.  The documented use of a Punycode label.  For a sequence [x] of
    code points without a percent sign and a label that a reference
    encoder of RFC 3492 (with integers of at most 31 bits) gives for it,
    the request of the path [/avatar/xn--] followed by the label gets a
    response, and the text of the avatar, which the text node of the SVG
    holds in escaped form, is the first two graphemes of [x]; for the
    empty [x] it is the default text. *)
Theorem handleRequest_punycode_label (rt : Runtime) (random : nat -> Z)
    maxint (x : list Z) (label : jsstring)
    (query : list (jsstring * jsstring)) :
  maxint <= 2 ^ 31 - 1 ->
  Forall code_point x ->
  Z.of_nat (length x) < 2 ^ 32 ->
  RFC3492.encode maxint x = Some label ->
  ~ In 37 x ->
  let url := {| pathname := BASEPATH ++ PUNYCODE.prefix ++ label;
                searchParams := query |} in
  let shown := getFirstGraphemes rt (utf16 x) DEFAULTS.maxTextLength in
  exists options response head,
    parseAvatarOptions rt url = Return options
    /\ text options = match shown with [] => DEFAULTS.text | _ => shown end
    /\ handleRequest rt random url = Return response
    /\ body response = head ++ textNode (escapeXml (text options)).
Proof.
  intros Hmax Hcp Hlen Henc Hno. cbv zeta.
  destruct (encode_label maxint x label Hmax Hcp Hlen Henc)
    as [Hdecode Hlabel].
  assert (Hplain : ~ In 37 (PUNYCODE.prefix ++ label)).
  { intros Hin. apply in_app_or in Hin. destruct Hin as [Hin|Hin].
    - cbn in Hin. repeat destruct Hin as [Hin|Hin]; try discriminate.
      exact Hin.
    - apply Hlabel in Hin. unfold PUNYCODE.delimiter in Hin.
      destruct Hin as [Hin|Hin]; [contradiction | lia]. }
  assert (Hparse :
    parseAvatarOptions rt
      {| pathname := BASEPATH ++ PUNYCODE.prefix ++ label;
         searchParams := query |}
    = Return
        {| size :=
             Z.max 1
               (Z.min
                  match parseInt (lookup query (str "s")) with
                  | Some 0 | None => DEFAULTS.size
                  | Some size => size
                  end 1000);
           text :=
             match getFirstGraphemes rt (utf16 x) DEFAULTS.maxTextLength with
             | [] => DEFAULTS.text
             | _ => getFirstGraphemes rt (utf16 x) DEFAULTS.maxTextLength
             end;
           shape := lookup query (str "shape");
           isRootPath :=
             jsstring_eqb (BASEPATH ++ PUNYCODE.prefix ++ label) (str "/") |}).
  { unfold parseAvatarOptions, searchParams_get. cbn [pathname searchParams].
    rewrite startsWith_app, sliceFrom_app.
    unfold decodeURIComponent.
    rewrite decodeURI_loop_plain by (try apply le_n; exact Hplain).
    cbn [bind]. unfold decodePunycodeIfNeeded.
    replace (isPunycode (PUNYCODE.prefix ++ label)) with true
      by (symmetry; apply isPunycode_prefix;
          exists 120, 110, label; repeat split; left; reflexivity).
    cbn [negb]. rewrite sliceFrom_app, Hdecode. cbn [bind].
    destruct (getFirstGraphemes rt (utf16 x) DEFAULTS.maxTextLength);
      reflexivity. }
  unfold handleRequest. rewrite Hparse. cbn [bind text size shape isRootPath].
  destruct (getGradientColors random 0) as [[color1 color2] next].
  set (shown := match getFirstGraphemes rt (utf16 x) DEFAULTS.maxTextLength
                with [] => DEFAULTS.text | _ => _ end).
  destruct (generateSvgAvatar_tail rt
              (Z.max 1
                 (Z.min
                    match parseInt (lookup query (str "s")) with
                    | Some 0 | None => DEFAULTS.size
                    | Some size => size
                    end 1000))
              shown (getShapeStyle (lookup query (str "shape")))
              color1 color2) as [head Hhead].
  eexists. eexists.
  exists (head ++ fontSizeAttribute
                    (numberToString rt
                       (calculateFontSize rt
                          (Z.max 1
                             (Z.min
                                match parseInt (lookup query (str "s")) with
                                | Some 0 | None => DEFAULTS.size
                                | Some size => size
                                end 1000)) shown))).
  split; [reflexivity|]. split; [reflexivity|]. split; [reflexivity|].
  cbn [body createSvgResponse text]. rewrite Hhead, <- app_assoc.
  reflexivity.
Qed.

Lemma handleRequest_punycode_label_witness :
  RFC3492.encode (2 ^ 31 - 1) [26085; 26412] = Some (str "wgv71a")
  /\ exists options response,
       parseAvatarOptions fallbackRuntime
         {| pathname := str "/avatar/xn--wgv71a"; searchParams := [] |}
       = Return options
       /\ text options = [26085; 26412]
       /\ handleRequest fallbackRuntime (fun _ => 7)
            {| pathname := str "/avatar/xn--wgv71a"; searchParams := [] |}
          = Return response.
Proof.
  assert (H1 : 2 ^ 31 - 1 <= 2 ^ 31 - 1) by lia.
  assert (H2 : Forall code_point [26085; 26412])
    by (repeat constructor; unfold code_point; lia).
  assert (H3 : Z.of_nat (length [26085; 26412]) < 2 ^ 32)
    by (cbn [length]; lia).
  assert (H4 : RFC3492.encode (2 ^ 31 - 1) [26085; 26412]
               = Some (str "wgv71a")) by (vm_compute; reflexivity).
  assert (H5 : ~ In 37 [26085; 26412])
    by (intros [H|[H|[]]]; discriminate).
  split; [exact H4|].
  destruct (handleRequest_punycode_label fallbackRuntime (fun _ => 7)
              (2 ^ 31 - 1) [26085; 26412] (str "wgv71a") [] H1 H2 H3 H4 H5)
    as (options & response & head & Hparse & Htext & Hresponse & _).
  exists options, response.
  split; [exact Hparse|]. split; [exact Htext | exact Hresponse].
Defined.

(* ================================================================== *)
(** ** A size with something after its digits *)

Lemma decimalDigits_leading digits junk :
  forallb isDecimalDigit digits = true ->
  match junk with [] => true | j :: _ => negb (isDecimalDigit j) end = true ->
  decimalDigits (digits ++ junk) = digits.
Proof.
  intros Hall Hjunk. induction digits as [|c digits IH].
  - destruct junk as [|j junk]; [reflexivity|].
    cbn [app decimalDigits]. apply negb_true_iff in Hjunk.
    rewrite Hjunk. reflexivity.
  - cbn [forallb] in Hall. apply andb_true_iff in Hall.
    destruct Hall as [Hc Hall].
    cbn [app decimalDigits]. rewrite Hc, (IH Hall). reflexivity.
Qed.

Lemma parseInt_leading c digits junk :
  forallb isDecimalDigit (c :: digits) = true ->
  match junk with [] => true | j :: _ => negb (isDecimalDigit j) end = true ->
  parseInt (Some (c :: digits ++ junk)) = Some (digitsValue (c :: digits) 0).
Proof.
  intros Hall Hjunk. pose proof Hall as Hc. cbn [forallb] in Hc.
  apply andb_true_iff in Hc. destruct Hc as [Hc _].
  pose proof (decimalDigits_leading (c :: digits) junk Hall Hjunk) as Hlead.
  cbn [app] in Hlead.
  unfold parseInt. cbn [trimStart].
  rewrite (isDecimalDigit_not_white c Hc).
  unfold isDecimalDigit in Hc.
  assert (Hten : c = 48 \/ c = 49 \/ c = 50 \/ c = 51 \/ c = 52 \/ c = 53
                 \/ c = 54 \/ c = 55 \/ c = 56 \/ c = 57) by lia.
  repeat destruct Hten as [Hten|Hten]; subst c;
    cbv iota beta; rewrite Hlead;
    unfold digitsValue; f_equal; lia.
Qed.

(** X22.  The size is read off the decimal digits in front of the
    parameter [s], whatever follows them: for [s=120px] it is 120 and for
    [s=12.5] it is 12.  The value of the digits is clamped to 1000, and
    the value 0 gives the default 60. *)
Theorem parseAvatarOptions_size_leading_digits rt url options
    (c : Z) (digits junk : jsstring) :
  parseAvatarOptions rt url = Return options ->
  forallb isDecimalDigit (c :: digits) = true ->
  match junk with [] => true | j :: _ => negb (isDecimalDigit j) end = true ->
  searchParams_get url (str "s") = Some (c :: digits ++ junk) ->
  size options
  = (if digitsValue (c :: digits) 0 =? 0 then 60
     else Z.min (digitsValue (c :: digits) 0) 1000)
  /\ 0 <= digitsValue (c :: digits) 0.
Proof.
  intros H Hall Hjunk Hs.
  assert (Hnn : forall ds value,
            forallb isDecimalDigit ds = true -> 0 <= value ->
            0 <= digitsValue ds value).
  { induction ds as [|d ds IH]; intros value Hds Hv; [exact Hv|].
    cbn [forallb] in Hds. apply andb_true_iff in Hds.
    destruct Hds as [Hd Hds]. unfold digitsValue in *. cbn [fold_left].
    apply IH; [exact Hds|]. unfold isDecimalDigit in Hd. lia. }
  specialize (Hnn (c :: digits) 0 Hall (Z.le_refl 0)).
  split; [|exact Hnn].
  rewrite (parseAvatarOptions_size_eq rt url options H), Hs.
  rewrite (parseInt_leading c digits junk Hall Hjunk).
  set (z := digitsValue (c :: digits) 0) in *.
  destruct (z =? 0) eqn:E.
  - apply Z.eqb_eq in E. rewrite E. reflexivity.
  - apply Z.eqb_neq in E. unfold DEFAULTS.size.
    destruct z as [|p|p]; [contradiction | lia | lia].
Qed.

Lemma parseAvatarOptions_size_leading_digits_witness :
  let url := {| pathname := str "/avatar/JD";
                searchParams := [(str "s", str "120px")] |} in
  exists options,
    parseAvatarOptions fallbackRuntime url = Return options
    /\ size options = 120.
Proof.
  cbv zeta.
  destruct (parseAvatarOptions fallbackRuntime
              {| pathname := str "/avatar/JD";
                 searchParams := [(str "s", str "120px")] |})
    as [options| | |] eqn:E; try (vm_compute in E; discriminate).
  exists options. split; [reflexivity|].
  exact (proj1 (parseAvatarOptions_size_leading_digits fallbackRuntime _
                  options 49 (str "20") (str "px") E eq_refl eq_refl
                  eq_refl)).
Defined.

(* ================================================================== *)
(** ** The ways a request can end *)

(** X23.  No error of the Punycode decoder leaves [decodePunycodeIfNeeded],
    and a request ends in a response or in the URIError of
    [decodeURIComponent] (or, in this model, with an accumulator of the
    decoder beyond 2^53 - 1).  The URIError is that of the text after
    [/avatar/]: a path that does not start with it cannot fail. *)
Theorem handleRequest_failure_modes rt random url :
  ((exists response, handleRequest rt random url = Return response)
   \/ handleRequest rt random url = Throw URIError
   \/ handleRequest rt random url = Inexact)
  /\ (handleRequest rt random url = Throw URIError <->
      startsWith (pathname url) BASEPATH = true
      /\ decodeURIComponent (sliceFrom (pathname url) (length BASEPATH))
         = Throw URIError)
  /\ (forall s e, decodePunycodeIfNeeded s <> Throw e).
Proof.
  assert (Hpuny : forall s e, decodePunycodeIfNeeded s <> Throw e).
  { intros s e.
    destruct (decodePunycodeIfNeeded_outcome s) as [[r ->]| ->];
      discriminate. }
  split; [apply handleRequest_outcome|]. split; [|exact Hpuny].
  unfold handleRequest, parseAvatarOptions.
  destruct (startsWith (pathname url) BASEPATH).
  - destruct (decodeURIComponent _) as [decodedText|e| |]; cbn [bind].
    + specialize (Hpuny decodedText).
      destruct (decodePunycodeIfNeeded decodedText) as [r|e| |];
        cbn [bind].
      * destruct (getGradientColors random 0) as [[color1 color2] next].
        split; [discriminate | intros [_ H]; discriminate].
      * destruct (Hpuny e eq_refl).
      * split; [discriminate | intros [_ H]; discriminate].
      * split; [discriminate | intros [_ H]; discriminate].
    + split.
      * intros H. injection H as ->. split; reflexivity.
      * intros [_ H]. injection H as ->. reflexivity.
    + split; [discriminate | intros [_ H]; discriminate].
    + split; [discriminate | intros [_ H]; discriminate].
  - cbn [bind]. destruct (getGradientColors random 0) as [[c1 c2] next].
    split; [discriminate | intros [H _]; discriminate].
Qed.
